(** * Transaction authoring and input signing (package [txauthor])

    A shallow embedding of
    [vendor/github.com/classzz/czzwallet/wallet/txauthor/author.go]:
    the fee negotiation loop of [NewUnsignedTransaction], the output
    position swap of [RandomizeOutputPosition] / [RandomizeChangePosition]
    and the signing pass of [AddAllInputScripts].

    Conventions.
    - [czzutil.Amount], [int64] and [int] are 64-bit signed integers: they
      are values of [Z] and every addition and subtraction of the source is
      followed by [Int64.wrap].
    - A Go slice is a [list]; indexing goes through [slice_get], which
      fails outside [0, len) the way the Go run time panics.
    - A Go function that may return an error, panic, or mutate something
      is a state transformer [M St A] producing an [outcome].
    - The callbacks ([InputSource], [ChangeSource], [SecretsSource]) own
      state of their own, which is threaded explicitly.  A callback is a
      function that returns, with an error or a result: a nil callback and
      a panic raised inside a callback are not modelled.
    - [tx.TxIn] is a slice of pointers: an entry of the model carries its
      pointer, and the one write of the source through such a pointer
      shows at every entry that holds it. *)

From Stdlib Require Import ZArith Lia String List Sorted.
From stdpp Require Import base list.

Local Open Scope Z_scope.

(** ** 64-bit signed arithmetic *)

Module Int64.

Definition min_signed : Z := - 2 ^ 63.
Definition max_signed : Z := 2 ^ 63 - 1.

Definition in_range (z : Z) : Prop := min_signed <= z <= max_signed.

(** Two's complement reduction of a mathematical integer. *)
Definition wrap (z : Z) : Z := (z + 2 ^ 63) mod 2 ^ 64 - 2 ^ 63.

Definition add (a b : Z) : Z := wrap (a + b).
Definition sub (a b : Z) : Z := wrap (a - b).

End Int64.

(** ** Wire data ([wire.OutPoint], [wire.TxIn], [wire.TxOut], [wire.MsgTx]) *)

Abbreviation bytes := (list Byte.byte).

Record OutPoint : Type := mkOutPoint {
  Hash : bytes;
  Index : Z
}.

(** The entries of [tx.TxIn] are pointers, [[]*wire.TxIn], and the
    signing pass writes through them.  An entry of the model is the
    pointer, [Ptr], beside the struct it refers to: two entries with the
    same [Ptr] are one [wire.TxIn] listed twice, and a write through the
    pointer shows at both.  ([tx.TxOut] holds pointers as well; the source
    reads and moves them and never writes through one.) *)
Record TxIn : Type := mkTxIn {
  Ptr : nat;
  PreviousOutPoint : OutPoint;
  SignatureScript : bytes;
  Sequence : Z
}.

Record TxOut : Type := mkTxOut {
  Value : Z;
  PkScript : bytes
}.

(** [wire.NewTxOut(value, pkScript)]. *)
Definition NewTxOut (value : Z) (pkScript : bytes) : TxOut :=
  {| Value := value; PkScript := pkScript |}.

(** The fields [TxIn] and [TxOut] of [wire.MsgTx] carry the prefix [tx_]
    because the record types already own those names. *)
Record MsgTx : Type := mkMsgTx {
  tx_Version : Z;
  tx_TxIn : list TxIn;
  tx_TxOut : list TxOut;
  tx_LockTime : Z
}.

(** ** Errors, panics and outcomes *)

(** The values of Go's [error] interface that occur here:
    [insufficientFundsError{}], the result of [errors.New], and whatever a
    callback returns (opaque to this package; the flag tells whether the
    value implements [InputSourceError]). *)
Inductive error : Type :=
| insufficientFundsError
| errorString (msg : string)
| callbackError (implementsInputSourceError : bool) (msg : string).

(** Whether an error value has the method [InputSourceError()]. *)
Definition isInputSourceError (e : error) : bool :=
  match e with
  | insufficientFundsError => true
  | errorString _ => false
  | callbackError b _ => b
  end.

(** [insufficientFundsError.Error()]. *)
Definition Error (e : error) : string :=
  match e with
  | insufficientFundsError =>
      "insufficient funds available to construct transaction"%string
  | errorString msg => msg
  | callbackError _ msg => msg
  end.

(** Run-time panics of the Go code: an index expression out of range. *)
Inductive panic : Type :=
| IndexOutOfRange (index length : Z).

(** How a call ends: a normal return, a returned non-nil error, a panic,
    or (for the unbounded [for] loop only) the model's fuel running out
    while the loop is still going. *)
Inductive outcome (A : Type) : Type :=
| Ok (a : A)
| Err (e : error)
| Panic (p : panic)
| OutOfFuel.

Arguments Ok {A} a.
Arguments Err {A} e.
Arguments Panic {A} p.
Arguments OutOfFuel {A}.

(** State transformers with outcomes. *)
Definition M (St A : Type) : Type := St -> outcome A * St.

Definition ret {St A : Type} (a : A) : M St A := fun s => (Ok a, s).

Definition fail {St A : Type} (e : error) : M St A := fun s => (Err e, s).

Definition throw {St A : Type} (p : panic) : M St A := fun s => (Panic p, s).

Definition bind {St A B : Type} (m : M St A) (k : A -> M St B) : M St B :=
  fun s =>
    match m s with
    | (Ok a, s') => k a s'
    | (Err e, s') => (Err e, s')
    | (Panic p, s') => (Panic p, s')
    | (OutOfFuel, s') => (OutOfFuel, s')
    end.

Definition get {St : Type} : M St St := fun s => (Ok s, s).

Definition modify {St : Type} (f : St -> St) : M St unit := fun s => (Ok tt, f s).

(** Runs a computation on one component of the state. *)
Definition zoom {St Part A : Type} (proj : St -> Part) (upd : Part -> St -> St)
    (m : M Part A) : M St A :=
  fun s => let '(o, part) := m (proj s) in (o, upd part s).

(** A Go result pair [(value, err)] of a pure library function. *)
Definition liftResult {St A : Type} (r : error + A) : M St A :=
  match r with
  | inl err => fail err
  | inr a => ret a
  end.

Declare Scope go_scope.
Delimit Scope go_scope with go.

Notation "x <- c ;; k" := (bind c (fun x => k))
  (at level 100, c at next level, right associativity) : go_scope.
Notation "c ;;; k" := (bind c (fun _ => k))
  (at level 100, right associativity) : go_scope.

(** ** Slices *)

(** [len(l)]. *)
Definition len {A : Type} (l : list A) : Z := Z.of_nat (length l).

(** [l[i]] as a value: [None] when [i] is outside [0, len(l))]. *)
Definition slice_get {A : Type} (l : list A) (i : Z) : option A :=
  if i <? 0 then None else l !! Z.to_nat i.

(** [l[i] = x] for an index already known to be in range. *)
Definition slice_set {A : Type} (l : list A) (i : Z) (x : A) : list A :=
  <[Z.to_nat i := x]> l.

(** The index expression [l[i]] inside a function body. *)
Definition slice_at {St A : Type} (l : list A) (i : Z) : M St A :=
  match slice_get l i with
  | Some x => ret x
  | None => throw (IndexOutOfRange i (len l))
  end.

(** ** The collaborators of the builder *)

(** The size and fee policy the builder calls into.  Their code lives in
    the packages [txsizes], [txrules] and [wire], outside this file's
    source, so the builder is modelled over any implementation of them.
    - [EstimateSerializeSize inputCount txOuts addChangeOutput]
    - [FeeForSerializeSize relayFeePerKb txSerializeSize]
    - [IsDustAmount amount scriptSize relayFeePerKb]
    - the constants [txsizes.P2PKHPkScriptSize] and [wire.TxVersion]. *)
Class Policy : Type := {
  EstimateSerializeSize : Z -> list TxOut -> bool -> Z;
  FeeForSerializeSize : Z -> Z -> Z;
  IsDustAmount : Z -> Z -> Z -> bool;
  P2PKHPkScriptSize : Z;
  TxVersion : Z
}.

(** What an [InputSource] returns besides its error. *)
Record Inputs : Type := mkInputs {
  total : Z;
  inputs : list TxIn;
  inputValues : list Z;
  scripts : list bytes
}.

(** [type InputSource func(target) (total, inputs, inputValues, scripts, err)],
    a closure over wallet state of type [W]. *)
Definition InputSource (W : Type) : Type := W -> Z -> W * (error + Inputs).

(** [type ChangeSource func() ([]byte, error)]. *)
Definition ChangeSource (W : Type) : Type := W -> W * (error + bytes).

(** [AuthoredTx]. *)
Record AuthoredTx : Type := mkAuthoredTx {
  Tx : MsgTx;
  PrevScripts : list bytes;
  PrevInputValues : list Z;
  TotalInput : Z;
  ChangeIndex : Z
}.

(** The calls made to the two callbacks, in order, with what each was
    asked and what it answered.  The log is ghost state: the Go code keeps
    none, it only serves to count and inspect the calls. *)
Inductive event : Type :=
| FetchInputs (target : Z) (answer : error + Inputs)
| FetchChange (answer : error + bytes).

Record Env (W : Type) : Type := mkEnv {
  world : W;
  log : list event
}.

Arguments mkEnv {W} world log.
Arguments world {W} e.
Arguments log {W} e.

(** Number of calls to the input source in a call log. *)
Definition fetchInputsCalls (l : list event) : nat :=
  length (List.filter
            (fun ev => match ev with FetchInputs _ _ => true | FetchChange _ => false end) l).

(** Modelled from the spec: [h.SumOutputValues] (package
    [internal/helpers], not part of the source at hand) is the sum of the
    output values, "targetAmount = sum(outputs.value)", accumulated in an
    [Amount]. *)
Definition SumOutputValues (outputs : list TxOut) : Z :=
  fold_left (fun totalOutput txOut => Int64.add totalOutput (Value txOut)) outputs 0.

Section Builder.

Context {policy : Policy} {W : Type}.
Variable outputs : list TxOut.
Variable relayFeePerKb : Z.
Variable fetchInputs : InputSource W.
Variable fetchChange : ChangeSource W.

Local Open Scope go_scope.

(** A call [fetchInputs(target)], recorded in the log. *)
Definition callFetchInputs (target : Z) : M (Env W) Inputs :=
  fun env =>
    let '(w, answer) := fetchInputs (world env) target in
    let env' := mkEnv w (log env ++ [FetchInputs target answer]) in
    match answer with
    | inl err => (Err err, env')
    | inr r => (Ok r, env')
    end.

(** A call [fetchChange()], recorded in the log. *)
Definition callFetchChange : M (Env W) bytes :=
  fun env =>
    let '(w, answer) := fetchChange (world env) in
    let env' := mkEnv w (log env ++ [FetchChange answer]) in
    match answer with
    | inl err => (Err err, env')
    | inr changeScript => (Ok changeScript, env')
    end.

(** One pass through the body of the [for] loop: [inl fee] is [continue]
    with [targetFee = fee], [inr tx] is the final [return]. *)
Definition loopBody (targetAmount targetFee : Z) : M (Env W) (Z + AuthoredTx) :=
  r <- callFetchInputs (Int64.add targetAmount targetFee) ;;
  let inputAmount := total r in
  if inputAmount <? Int64.add targetAmount targetFee then
    fail insufficientFundsError
  else
    let maxSignedSize := EstimateSerializeSize (len (inputs r)) outputs true in
    let maxRequiredFee := FeeForSerializeSize relayFeePerKb maxSignedSize in
    let remainingAmount := Int64.sub inputAmount targetAmount in
    if remainingAmount <? maxRequiredFee then
      ret (inl maxRequiredFee)
    else
      let unsignedTransaction :=
        {| tx_Version := TxVersion;
           tx_TxIn := inputs r;
           tx_TxOut := outputs;
           tx_LockTime := 0 |} in
      let changeAmount :=
        Int64.sub (Int64.sub inputAmount targetAmount) maxRequiredFee in
      c <- (if negb (changeAmount =? 0)
               && negb (IsDustAmount changeAmount P2PKHPkScriptSize relayFeePerKb)
            then
              changeScript <- callFetchChange ;;
              if len changeScript >? P2PKHPkScriptSize then
                fail (errorString
                  "fee estimation requires change scripts no larger than P2PKH output scripts")
              else
                let change := NewTxOut changeAmount changeScript in
                let l := len outputs in
                ret ({| tx_Version := tx_Version unsignedTransaction;
                        tx_TxIn := tx_TxIn unsignedTransaction;
                        tx_TxOut := outputs ++ [change];
                        tx_LockTime := tx_LockTime unsignedTransaction |}, l)
            else
              ret (unsignedTransaction, -1)) ;;
      ret (inr {| Tx := fst c;
                  PrevScripts := scripts r;
                  PrevInputValues := inputValues r;
                  TotalInput := inputAmount;
                  ChangeIndex := snd c |}).

(** The [for] loop, unrolled at most [fuel] times. *)
Fixpoint loop (fuel : nat) (targetAmount targetFee : Z) : M (Env W) AuthoredTx :=
  match fuel with
  | O => fun env => (OutOfFuel, env)
  | S fuel' =>
      next <- loopBody targetAmount targetFee ;;
      match next with
      | inl fee => loop fuel' targetAmount fee
      | inr tx => ret tx
      end
  end.

(** [NewUnsignedTransaction(outputs, relayFeePerKb, fetchInputs, fetchChange)],
    started in wallet state [w] with an empty call log. *)
Definition NewUnsignedTransaction (fuel : nat) (w : W) : outcome AuthoredTx * Env W :=
  let targetAmount := SumOutputValues outputs in
  let estimatedSize := EstimateSerializeSize 0 outputs true in
  let targetFee := FeeForSerializeSize relayFeePerKb estimatedSize in
  loop fuel targetAmount targetFee (mkEnv w []).

End Builder.

(** ** Output randomization *)

Section Randomize.

Local Open Scope go_scope.

(** [RandomizeOutputPosition(outputs, index)].  The state is the backing
    array of [outputs]; [r] is the value drawn by
    [cprng.Int31n(int32(len(outputs)))] (the generator is outside the
    source at hand; it draws from [0, len(outputs)), and with no output
    to draw from the call cannot get past its first index expression
    either).  In the tuple assignment
    [outputs[r], outputs[index] = outputs[index], outputs[r]] Go first
    evaluates the right-hand side, left to right, then assigns left to
    right. *)
Definition RandomizeOutputPosition (r : Z) (index : Z) : M (list TxOut) Z :=
  outputs <- get ;;
  atIndex <- slice_at outputs index ;;
  atR <- slice_at outputs r ;;
  modify (fun outputs => slice_set outputs r atIndex) ;;;
  modify (fun outputs => slice_set outputs index atR) ;;;
  ret r.

Definition set_TxOut (txOut : list TxOut) (tx : MsgTx) : MsgTx :=
  {| tx_Version := tx_Version tx;
     tx_TxIn := tx_TxIn tx;
     tx_TxOut := txOut;
     tx_LockTime := tx_LockTime tx |}.

Definition set_Tx (m : MsgTx) (tx : AuthoredTx) : AuthoredTx :=
  {| Tx := m;
     PrevScripts := PrevScripts tx;
     PrevInputValues := PrevInputValues tx;
     TotalInput := TotalInput tx;
     ChangeIndex := ChangeIndex tx |}.

Definition set_ChangeIndex (i : Z) (tx : AuthoredTx) : AuthoredTx :=
  {| Tx := Tx tx;
     PrevScripts := PrevScripts tx;
     PrevInputValues := PrevInputValues tx;
     TotalInput := TotalInput tx;
     ChangeIndex := i |}.

(** [(tx *AuthoredTx) RandomizeChangePosition()]: the swap happens in
    [tx.Tx.TxOut] itself, then the index is stored. *)
Definition RandomizeChangePosition (r : Z) : M AuthoredTx unit :=
  tx <- get ;;
  newIndex <- zoom (fun tx => tx_TxOut (Tx tx))
                   (fun txOut tx => set_Tx (set_TxOut txOut (Tx tx)) tx)
                   (RandomizeOutputPosition r (ChangeIndex tx)) ;;
  modify (set_ChangeIndex newIndex).

End Randomize.

(** ** Input signing *)

(** What the signing pass uses of package [txscript] (and of
    [czzutil.Amount.ToUnit]); none of it is part of the source at hand.
    [ExtractPkScriptAddrs] returns a script class, the addresses, the
    number of required signatures and an error: the pass keeps the
    addresses and the error.  [amountToSatoshi v] stands for
    [int64(v.ToUnit(czzutil.AmountSatoshi))], a round trip through
    [float64]. *)
Module txscript.

Class Lib : Type := {
  Params : Type;
  Address : Type;
  PrivateKey : Type;
  SigHashType : Type;
  SigHashAll : SigHashType;
  ExtractPkScriptAddrs : bytes -> Params -> error + list Address;
  SignatureScript :
    MsgTx -> Z -> Z -> bytes -> SigHashType -> PrivateKey -> bool -> error + bytes;
  amountToSatoshi : Z -> Z
}.

End txscript.

(** [type SecretsSource interface { txscript.KeyDB; txscript.ScriptDB;
    ChainParams() *chaincfg.Params }], implemented by a value of type
    [S] that its methods may update. *)
Class SecretsSource `{txscript.Lib} (S : Type) : Type := {
  GetKey : S -> txscript.Address -> S * (error + (txscript.PrivateKey * bool));
  GetScript : S -> txscript.Address -> S * (error + bytes);
  ChainParams : S -> txscript.Params
}.

(** The two objects the pass works on, the transaction behind the pointer
    [tx] and the secrets source, and the addresses [GetKey] has been
    called with so far, in order.  The last is ghost state: the Go code
    keeps no such list. *)
Record Signing (S A : Type) : Type := mkSigning {
  sgTx : MsgTx;
  sgSecrets : S;
  sgLookups : list A
}.

Arguments mkSigning {S A} sgTx sgSecrets sgLookups.
Arguments sgTx {S A} s.
Arguments sgSecrets {S A} s.
Arguments sgLookups {S A} s.

Definition set_SignatureScript (script : bytes) (txIn : TxIn) : TxIn :=
  {| Ptr := Ptr txIn;
     PreviousOutPoint := PreviousOutPoint txIn;
     SignatureScript := script;
     Sequence := Sequence txIn |}.

(** The slice [inputs] after a write of [script] to the field
    [SignatureScript] of the struct behind the pointer [p]. *)
Definition writeThrough (p : nat) (script : bytes) (inputs : list TxIn) : list TxIn :=
  map (fun txIn =>
         if Nat.eqb (Ptr txIn) p then set_SignatureScript script txIn else txIn)
      inputs.

Definition set_TxIn (txIn : list TxIn) (tx : MsgTx) : MsgTx :=
  {| tx_Version := tx_Version tx;
     tx_TxIn := txIn;
     tx_TxOut := tx_TxOut tx;
     tx_LockTime := tx_LockTime tx |}.

Section Sign.

Context {lib : txscript.Lib} {Sec : Type} {secrets : SecretsSource Sec}.
Variable prevPkScripts : list bytes.
Variable inputValues : list Z.
Variable chainParams : txscript.Params.

Local Open Scope go_scope.

(** A call [secrets.GetKey(addr)]. *)
Definition callGetKey (addr : txscript.Address)
    : M (Signing Sec txscript.Address) (txscript.PrivateKey * bool) :=
  fun st =>
    let '(s, answer) := GetKey (sgSecrets st) addr in
    let st' := mkSigning (sgTx st) s (sgLookups st ++ [addr]) in
    match answer with
    | inl err => (Err err, st')
    | inr key => (Ok key, st')
    end.

(** [inputs[i].SignatureScript = script], where [inputs] is [tx.TxIn]:
    [inputs[i]] is a pointer and the assignment writes the struct behind
    it, so that every entry of the slice that holds this pointer shows
    the new script. *)
Definition storeSignatureScript (i : Z) (script : bytes)
    : M (Signing Sec txscript.Address) unit :=
  st <- get ;;
  txIn <- slice_at (tx_TxIn (sgTx st)) i ;;
  modify (fun st =>
    mkSigning
      (set_TxIn (writeThrough (Ptr txIn) script (tx_TxIn (sgTx st))) (sgTx st))
      (sgSecrets st) (sgLookups st)).

(** The body of [for i := range inputs]. *)
Definition signInput (i : Z) : M (Signing Sec txscript.Address) unit :=
  pkScript <- slice_at prevPkScripts i ;;
  addrs <- liftResult (txscript.ExtractPkScriptAddrs pkScript chainParams) ;;
  addr0 <- slice_at addrs 0 ;;
  key <- callGetKey addr0 ;;
  let privKey := fst key in
  let compressed := snd key in
  inputValue <- slice_at inputValues i ;;
  st <- get ;;
  script <- liftResult
    (txscript.SignatureScript (sgTx st) i (txscript.amountToSatoshi inputValue)
       pkScript txscript.SigHashAll privKey compressed) ;;
  storeSignatureScript i script.

(** [todo] more passes through the loop, the next one for index [i]. *)
Fixpoint signLoop (todo : nat) (i : Z) : M (Signing Sec txscript.Address) unit :=
  match todo with
  | O => ret tt
  | S todo' => signInput i ;;; signLoop todo' (i + 1)
  end.

End Sign.

Section AddAll.

Context {lib : txscript.Lib} {Sec : Type} {secrets : SecretsSource Sec}.

Local Open Scope go_scope.

(** [AddAllInputScripts(tx, prevPkScripts, inputValues, secrets)]; the
    outcome [Ok tt] is the return of a nil error. *)
Definition AddAllInputScripts (prevPkScripts : list bytes) (inputValues : list Z)
    : M (Signing Sec txscript.Address) unit :=
  st <- get ;;
  let inputs := tx_TxIn (sgTx st) in
  let chainParams := ChainParams (sgSecrets st) in
  if negb (len inputs =? len prevPkScripts) then
    fail (errorString "tx.TxIn and prevPkScripts slices must have equal length")
  else
    signLoop prevPkScripts inputValues chainParams (length inputs) 0.

(** [(tx *AuthoredTx) AddAllInputScripts(secrets)]. *)
Definition AuthoredTx_AddAllInputScripts
    : M (AuthoredTx * Sec * list txscript.Address) unit :=
  st <- get ;;
  let tx := fst (fst st) in
  zoom (fun st : AuthoredTx * Sec * list txscript.Address =>
          mkSigning (Tx (fst (fst st))) (snd (fst st)) (snd st))
       (fun sg st => (set_Tx (sgTx sg) (fst (fst st)), sgSecrets sg, sgLookups sg))
       (AddAllInputScripts (PrevScripts tx) (PrevInputValues tx)).

End AddAll.

(** ** What the builder and the signing pass are specified with *)

(** The ordinary sum of the output values. *)
Definition exactOutputValue (outputs : list TxOut) : Z :=
  fold_right (fun txOut acc => Value txOut + acc) 0 outputs.

Section BuilderSpec.

Context {policy : Policy} {W : Type}.
Variable outputs : list TxOut.
Variable relayFeePerKb : Z.
Variable fetchInputs : InputSource W.
Variable fetchChange : ChangeSource W.

(** The fee the builder requires of a transaction with [n] inputs. *)
Definition requiredFee (n : Z) : Z :=
  FeeForSerializeSize relayFeePerKb (EstimateSerializeSize n outputs true).

(** The authored transactions the final [return] can produce for target
    amount [T]: without change when the change amount is zero or dust, with
    a change output appended otherwise. *)
Inductive authored (T : Z) : AuthoredTx -> Prop :=
| authored_without_change (r : Inputs) :
    let fee := requiredFee (len (inputs r)) in
    let changeAmount := Int64.sub (Int64.sub (total r) T) fee in
    fee <= Int64.sub (total r) T ->
    changeAmount = 0 \/ IsDustAmount changeAmount P2PKHPkScriptSize relayFeePerKb = true ->
    authored T
      {| Tx := {| tx_Version := TxVersion; tx_TxIn := inputs r;
                  tx_TxOut := outputs; tx_LockTime := 0 |};
         PrevScripts := scripts r;
         PrevInputValues := inputValues r;
         TotalInput := total r;
         ChangeIndex := -1 |}
| authored_with_change (r : Inputs) (changeScript : bytes) :
    let fee := requiredFee (len (inputs r)) in
    let changeAmount := Int64.sub (Int64.sub (total r) T) fee in
    fee <= Int64.sub (total r) T ->
    changeAmount <> 0 ->
    IsDustAmount changeAmount P2PKHPkScriptSize relayFeePerKb = false ->
    len changeScript <= P2PKHPkScriptSize ->
    authored T
      {| Tx := {| tx_Version := TxVersion; tx_TxIn := inputs r;
                  tx_TxOut := outputs ++ [NewTxOut changeAmount changeScript];
                  tx_LockTime := 0 |};
         PrevScripts := scripts r;
         PrevInputValues := inputValues r;
         TotalInput := total r;
         ChangeIndex := len outputs |}.

(** One pass through the loop body, as a relation between the state
    before, the outcome and the state after: which callbacks were called,
    what they answered and which branch was taken. *)
Inductive bodyStep (T fee : Z) (env : Env W)
    : outcome (Z + AuthoredTx) -> Env W -> Prop :=
| step_inputs_error (w : W) (err : error) :
    let t := Int64.add T fee in
    fetchInputs (world env) t = (w, inl err) ->
    bodyStep T fee env (Err err) (mkEnv w (log env ++ [FetchInputs t (inl err)]))
| step_insufficient (w : W) (r : Inputs) :
    let t := Int64.add T fee in
    fetchInputs (world env) t = (w, inr r) ->
    total r < t ->
    bodyStep T fee env (Err insufficientFundsError)
      (mkEnv w (log env ++ [FetchInputs t (inr r)]))
| step_continue (w : W) (r : Inputs) :
    let t := Int64.add T fee in
    fetchInputs (world env) t = (w, inr r) ->
    t <= total r ->
    Int64.sub (total r) T < requiredFee (len (inputs r)) ->
    bodyStep T fee env (Ok (inl (requiredFee (len (inputs r)))))
      (mkEnv w (log env ++ [FetchInputs t (inr r)]))
| step_return_without_change (w : W) (r : Inputs) (tx : AuthoredTx) :
    let t := Int64.add T fee in
    fetchInputs (world env) t = (w, inr r) ->
    t <= total r ->
    bodyStep T fee env (Ok (inr tx)) (mkEnv w (log env ++ [FetchInputs t (inr r)]))
| step_change_error (w : W) (r : Inputs) (w' : W) (err : error) :
    let t := Int64.add T fee in
    fetchInputs (world env) t = (w, inr r) ->
    t <= total r ->
    fetchChange w = (w', inl err) ->
    bodyStep T fee env (Err err)
      (mkEnv w' ((log env ++ [FetchInputs t (inr r)]) ++ [FetchChange (inl err)]))
| step_change_too_large (w : W) (r : Inputs) (w' : W) (changeScript : bytes) :
    let t := Int64.add T fee in
    fetchInputs (world env) t = (w, inr r) ->
    t <= total r ->
    fetchChange w = (w', inr changeScript) ->
    P2PKHPkScriptSize < len changeScript ->
    bodyStep T fee env
      (Err (errorString
         "fee estimation requires change scripts no larger than P2PKH output scripts"))
      (mkEnv w' ((log env ++ [FetchInputs t (inr r)]) ++ [FetchChange (inr changeScript)]))
| step_return_with_change (w : W) (r : Inputs) (w' : W) (changeScript : bytes)
    (tx : AuthoredTx) :
    let t := Int64.add T fee in
    fetchInputs (world env) t = (w, inr r) ->
    t <= total r ->
    fetchChange w = (w', inr changeScript) ->
    len changeScript <= P2PKHPkScriptSize ->
    bodyStep T fee env (Ok (inr tx))
      (mkEnv w' ((log env ++ [FetchInputs t (inr r)]) ++ [FetchChange (inr changeScript)])).

(** What the inputs are worth beyond the outputs of the authored
    transaction and the required fee, in the builder's arithmetic. *)
Definition residualValue (tx : AuthoredTx) : Z :=
  Int64.sub (Int64.sub (TotalInput tx) (SumOutputValues (tx_TxOut (Tx tx))))
            (requiredFee (len (tx_TxIn (Tx tx)))).

(** The amounts of a call stay within the non-negative 64-bit range: the
    requested values are non-negative and their sum fits, the total input
    is non-negative and fits, and the required fee is non-negative. *)
Definition validAmounts (tx : AuthoredTx) : Prop :=
  Forall (fun txOut => 0 <= Value txOut) outputs /\
  exactOutputValue outputs <= Int64.max_signed /\
  0 <= TotalInput tx <= Int64.max_signed /\
  0 <= requiredFee (len (tx_TxIn (Tx tx))).

(** The same difference in ordinary integer arithmetic. *)
Definition exactResidualValue (tx : AuthoredTx) : Z :=
  TotalInput tx - exactOutputValue (tx_TxOut (Tx tx))
  - requiredFee (len (tx_TxIn (Tx tx))).

(** An answer of the input source that falls short of what was asked. *)
Definition shortAnswer (ev : event) : Prop :=
  match ev with
  | FetchInputs target (inr r) => total r < target
  | _ => False
  end.

(** A call of the change source. *)
Definition isFetchChange (ev : event) : Prop :=
  match ev with
  | FetchChange _ => True
  | FetchInputs _ _ => False
  end.

(** An answer of the change source that is longer than a P2PKH script. *)
Definition oversizedAnswer (ev : event) : Prop :=
  match ev with
  | FetchChange (inr changeScript) => P2PKHPkScriptSize < len changeScript
  | _ => False
  end.

End BuilderSpec.

Section SigningSpec.

Context {lib : txscript.Lib} {Sec : Type} {secrets : SecretsSource Sec}.
Variable prevPkScripts : list bytes.
Variable inputValues : list Z.
Variable chainParams : txscript.Params.

(** One pass through the body of the signing loop for index [i], as a
    relation between the state before, the outcome and the state after:
    one constructor for each way out of the body. *)
Inductive signStep (i : Z) (st : Signing Sec txscript.Address)
    : outcome unit -> Signing Sec txscript.Address -> Prop :=
| sign_no_script :
    slice_get prevPkScripts i = None ->
    signStep i st (Panic (IndexOutOfRange i (len prevPkScripts))) st
| sign_extract_error (pkScript : bytes) (err : error) :
    slice_get prevPkScripts i = Some pkScript ->
    txscript.ExtractPkScriptAddrs pkScript chainParams = inl err ->
    signStep i st (Err err) st
| sign_no_address (pkScript : bytes) :
    slice_get prevPkScripts i = Some pkScript ->
    txscript.ExtractPkScriptAddrs pkScript chainParams = inr [] ->
    signStep i st (Panic (IndexOutOfRange 0 0)) st
| sign_key_error (pkScript : bytes) (addr : txscript.Address)
    (rest : list txscript.Address) (s : Sec) (err : error) :
    slice_get prevPkScripts i = Some pkScript ->
    txscript.ExtractPkScriptAddrs pkScript chainParams = inr (addr :: rest) ->
    GetKey (sgSecrets st) addr = (s, inl err) ->
    signStep i st (Err err) (mkSigning (sgTx st) s (sgLookups st ++ [addr]))
| sign_no_value (pkScript : bytes) (addr : txscript.Address)
    (rest : list txscript.Address) (s : Sec) (key : txscript.PrivateKey * bool) :
    slice_get prevPkScripts i = Some pkScript ->
    txscript.ExtractPkScriptAddrs pkScript chainParams = inr (addr :: rest) ->
    GetKey (sgSecrets st) addr = (s, inr key) ->
    slice_get inputValues i = None ->
    signStep i st (Panic (IndexOutOfRange i (len inputValues)))
      (mkSigning (sgTx st) s (sgLookups st ++ [addr]))
| sign_signature_error (pkScript : bytes) (addr : txscript.Address)
    (rest : list txscript.Address) (s : Sec) (key : txscript.PrivateKey * bool)
    (inputValue : Z) (err : error) :
    slice_get prevPkScripts i = Some pkScript ->
    txscript.ExtractPkScriptAddrs pkScript chainParams = inr (addr :: rest) ->
    GetKey (sgSecrets st) addr = (s, inr key) ->
    slice_get inputValues i = Some inputValue ->
    txscript.SignatureScript (sgTx st) i (txscript.amountToSatoshi inputValue)
      pkScript txscript.SigHashAll (fst key) (snd key) = inl err ->
    signStep i st (Err err) (mkSigning (sgTx st) s (sgLookups st ++ [addr]))
| sign_no_input (pkScript : bytes) (addr : txscript.Address)
    (rest : list txscript.Address) (s : Sec) (key : txscript.PrivateKey * bool)
    (inputValue : Z) (script : bytes) :
    slice_get prevPkScripts i = Some pkScript ->
    txscript.ExtractPkScriptAddrs pkScript chainParams = inr (addr :: rest) ->
    GetKey (sgSecrets st) addr = (s, inr key) ->
    slice_get inputValues i = Some inputValue ->
    txscript.SignatureScript (sgTx st) i (txscript.amountToSatoshi inputValue)
      pkScript txscript.SigHashAll (fst key) (snd key) = inr script ->
    slice_get (tx_TxIn (sgTx st)) i = None ->
    signStep i st (Panic (IndexOutOfRange i (len (tx_TxIn (sgTx st)))))
      (mkSigning (sgTx st) s (sgLookups st ++ [addr]))
| sign_stored (pkScript : bytes) (addr : txscript.Address)
    (rest : list txscript.Address) (s : Sec) (key : txscript.PrivateKey * bool)
    (inputValue : Z) (script : bytes) (txIn : TxIn) :
    slice_get prevPkScripts i = Some pkScript ->
    txscript.ExtractPkScriptAddrs pkScript chainParams = inr (addr :: rest) ->
    GetKey (sgSecrets st) addr = (s, inr key) ->
    slice_get inputValues i = Some inputValue ->
    txscript.SignatureScript (sgTx st) i (txscript.amountToSatoshi inputValue)
      pkScript txscript.SigHashAll (fst key) (snd key) = inr script ->
    slice_get (tx_TxIn (sgTx st)) i = Some txIn ->
    signStep i st (Ok tt)
      (mkSigning
         (set_TxIn (writeThrough (Ptr txIn) script (tx_TxIn (sgTx st))) (sgTx st))
         s (sgLookups st ++ [addr])).

(** [script] is a signature script that [txscript.SignatureScript]
    produced for input [j] and its previous output script. *)
Definition producedFor (j : nat) (script : bytes) : Prop :=
  exists (tx : MsgTx) (amount : Z) (pkScript : bytes)
         (privKey : txscript.PrivateKey) (compressed : bool),
    prevPkScripts !! j = Some pkScript /\
    txscript.SignatureScript tx (Z.of_nat j) amount pkScript txscript.SigHashAll
      privKey compressed = inr script.

(** The transaction [tx'] is [tx] with the signature scripts of the
    inputs at positions [from .. from + count - 1] overwritten by
    produced scripts and nothing else changed. *)
Definition signedRange (from count : nat) (tx tx' : MsgTx) : Prop :=
  tx' = set_TxIn (tx_TxIn tx') tx /\
  length (tx_TxIn tx') = length (tx_TxIn tx) /\
  (forall j, (j < from \/ from + count <= j)%nat -> tx_TxIn tx' !! j = tx_TxIn tx !! j) /\
  (forall j, (from <= j < from + count)%nat ->
     exists (txIn : TxIn) (script : bytes),
       tx_TxIn tx !! j = Some txIn /\
       tx_TxIn tx' !! j = Some (set_SignatureScript script txIn) /\
       producedFor j script).

(** The same when a pointer may be listed more than once.  [tx'] is [tx]
    after the passes for positions [from .. from + count - 1]: the slice
    holds the pointers it held; an input whose pointer none of these
    positions holds is as it was; any other input carries the script
    produced for the last of these positions that holds its pointer.
    Nothing else has changed. *)
Definition writtenRange (from count : nat) (tx tx' : MsgTx) : Prop :=
  tx' = set_TxIn (tx_TxIn tx') tx /\
  map Ptr (tx_TxIn tx') = map Ptr (tx_TxIn tx) /\
  forall (j : nat) (txIn : TxIn),
    tx_TxIn tx !! j = Some txIn ->
    ((forall k, (from <= k < from + count)%nat ->
        map Ptr (tx_TxIn tx) !! k <> Some (Ptr txIn)) /\
     tx_TxIn tx' !! j = Some txIn) \/
    (exists (k : nat) (script : bytes),
       (from <= k < from + count)%nat /\
       map Ptr (tx_TxIn tx) !! k = Some (Ptr txIn) /\
       (forall k', (k < k' < from + count)%nat ->
          map Ptr (tx_TxIn tx) !! k' <> Some (Ptr txIn)) /\
       tx_TxIn tx' !! j = Some (set_SignatureScript script txIn) /\
       producedFor k script).

(** An address is the first one extracted from a previous output script. *)
Definition firstExtracted (addr : txscript.Address) : Prop :=
  exists (j : nat) (pkScript : bytes) (rest : list txscript.Address),
    prevPkScripts !! j = Some pkScript /\
    txscript.ExtractPkScriptAddrs pkScript chainParams = inr (addr :: rest).

End SigningSpec.

(** ** A concrete policy and concrete collaborators

    Used to run the model on explicit inputs. *)

(** Modelled from the spec: the size estimate of
    [txsizes.EstimateSerializeSize] has "a fixed per-input overhead plus a
    per-input unlocking-script upper bound, plus a fixed per-output
    overhead".  The byte counts are those of pay-to-pubkey-hash
    transactions: 8 bytes of version and lock time, one byte for each
    count, 149 bytes per signed input, 8 + 1 bytes plus its script per
    output, a 25-byte change script. *)
Definition sampleEstimateSerializeSize (inputCount : Z) (txOuts : list TxOut)
    (addChangeOutput : bool) : Z :=
  8 + 1 + 1 + inputCount * 149
  + fold_left (fun n txOut => n + (8 + 1 + len (PkScript txOut))) txOuts 0
  + (if addChangeOutput then 8 + 1 + 25 else 0).

(** Modelled from the spec: the fee of [txrules.FeeForSerializeSize] is the
    rate times the size over 1000, truncated toward zero. *)
Definition sampleFeeForSerializeSize (relayFeePerKb txSerializeSize : Z) : Z :=
  Int64.wrap (Z.quot (Int64.wrap (relayFeePerKb * txSerializeSize)) 1000).

(** Modelled from the spec: for [txrules.IsDustAmount], an amount is dust
    when a third of it, per kilobyte of the output and of the input that
    will spend it (148 bytes), is below the fee rate. *)
Definition sampleIsDustAmount (amount scriptSize relayFeePerKb : Z) : bool :=
  let totalSize := 8 + 1 + scriptSize + 148 in
  Z.quot (Int64.wrap (amount * 1000)) (3 * totalSize) <? relayFeePerKb.

Definition samplePolicy : Policy :=
  {| EstimateSerializeSize := sampleEstimateSerializeSize;
     FeeForSerializeSize := sampleFeeForSerializeSize;
     IsDustAmount := sampleIsDustAmount;
     P2PKHPkScriptSize := 25;
     TxVersion := 1 |}.

(** A 25-byte locking script and a payment of 50000 to it. *)
Definition sampleScript : bytes := repeat Byte.x76 25.

Definition sampleOutputs : list TxOut := [NewTxOut 50000 sampleScript].

(** The input that spends output [n] of the all-zero transaction, a
    struct of its own for each [n]. *)
Definition sampleTxIn (n : Z) : TxIn :=
  {| Ptr := Z.to_nat n;
     PreviousOutPoint := {| Hash := repeat Byte.x00 32; Index := n |};
     SignatureScript := [];
     Sequence := 4294967295 |}.

(** One coin of value [v]. *)
Definition oneCoinAnswer (v : Z) : Inputs :=
  {| total := v; inputs := [sampleTxIn 0]; inputValues := [v];
     scripts := [sampleScript] |}.

(** An input source holding one coin of value [v]: it offers that coin
    whatever the target. *)
Definition oneCoin (v : Z) : InputSource unit :=
  fun w _ => (w, inr (oneCoinAnswer v)).

(** An input source that always pays the target exactly, the [k]-th call
    with [k] coins; its state counts the calls made so far. *)
Definition exactGrowing : InputSource nat :=
  fun calls target =>
    let k := S calls in
    (k, inr {| total := target;
               inputs := map (fun j => sampleTxIn (Z.of_nat j)) (seq 0 k);
               inputValues := repeat 1 (Nat.pred k) ++ [target - Z.of_nat (Nat.pred k)];
               scripts := repeat sampleScript k |}).

(** An input source that always pays the target exactly with one coin. *)
Definition exactOneCoin : InputSource unit :=
  fun w target =>
    (w, inr {| total := target; inputs := [sampleTxIn 0];
               inputValues := [target]; scripts := [sampleScript] |}).

(** A change source answering with a script of [n] bytes. *)
Definition changeOfSize {W : Type} (n : nat) : ChangeSource W :=
  fun w => (w, inr (repeat Byte.x76 n)).

(** A toy script library: an address is the locking script itself, an
    empty script has no address, a key is the address, and a signature
    script is the byte [0x48] followed by the key. *)
Definition sampleLib : txscript.Lib :=
  {| txscript.Params := unit;
     txscript.Address := bytes;
     txscript.PrivateKey := bytes;
     txscript.SigHashType := unit;
     txscript.SigHashAll := tt;
     txscript.ExtractPkScriptAddrs := fun pkScript _ =>
       match pkScript with
       | [] => inr []
       | _ => inr [pkScript]
       end;
     txscript.SignatureScript := fun _ _ _ pkScript _ privKey _ =>
       inr (Byte.x48 :: privKey);
     txscript.amountToSatoshi := fun v => v |}.

(** A secrets source that knows the key of every address except the
    one-byte address [0xff]. *)
Definition sampleSecrets : @SecretsSource sampleLib unit :=
  {| GetKey := fun s (addr : @txscript.Address sampleLib) =>
       match addr with
       | [Byte.xff] => (s, inl (callbackError false "no key for address"))
       | _ => (s, inr (addr, true))
       end;
     GetScript := fun s _ => (s, inl (callbackError false "no script for address"));
     ChainParams := fun _ => tt |}.

(** A transaction with two inputs and one output. *)
Definition sampleTx : MsgTx :=
  {| tx_Version := 1;
     tx_TxIn := [sampleTxIn 0; sampleTxIn 1];
     tx_TxOut := sampleOutputs;
     tx_LockTime := 0 |}.

(** The builder under the concrete policy, paying [sampleOutputs] at 1000
    per kilobyte. *)
Definition sampleBuild {W : Type} (fetchInputs : InputSource W)
    (fetchChange : ChangeSource W) (fuel : nat) (w : W)
    : outcome AuthoredTx * Env W :=
  NewUnsignedTransaction (policy := samplePolicy) sampleOutputs 1000
    fetchInputs fetchChange fuel w.

(** The signing pass under the toy library on [sampleTx]. *)
Definition sampleSign (prevPkScripts : list bytes) (inputValues : list Z)
    : outcome unit * Signing unit bytes :=
  AddAllInputScripts (lib := sampleLib) (secrets := sampleSecrets)
    prevPkScripts inputValues (mkSigning sampleTx tt []).

(** A transaction that lists one [wire.TxIn] twice, and the signing pass
    on it. *)
Definition aliasedTx : MsgTx :=
  {| tx_Version := 1;
     tx_TxIn := [sampleTxIn 0; sampleTxIn 0];
     tx_TxOut := sampleOutputs;
     tx_LockTime := 0 |}.

Definition aliasedSign (prevPkScripts : list bytes) (inputValues : list Z)
    : outcome unit * Signing unit bytes :=
  AddAllInputScripts (lib := sampleLib) (secrets := sampleSecrets)
    prevPkScripts inputValues (mkSigning aliasedTx tt []).

(** Three outputs to shuffle, and an authored transaction whose change
    output is the second of them. *)
Definition threeOutputs : list TxOut :=
  [NewTxOut 10 sampleScript; NewTxOut 20 sampleScript; NewTxOut 30 sampleScript].

Definition sampleAuthored (changeIndex : Z) : AuthoredTx :=
  {| Tx := {| tx_Version := 1; tx_TxIn := [sampleTxIn 0];
              tx_TxOut := threeOutputs; tx_LockTime := 0 |};
     PrevScripts := [sampleScript];
     PrevInputValues := [100];
     TotalInput := 100;
     ChangeIndex := changeIndex |}.

(** The targets the input source was asked for, in the order of the calls. *)
Definition requestedTargets (l : list event) : list Z :=
  flat_map (fun ev => match ev with
                      | FetchInputs target _ => [target]
                      | FetchChange _ => []
                      end) l.

(** The transaction [tx'] differs from [tx] at most in the signature
    scripts of its inputs: same version, outputs and lock time, and input
    for input the same previous outpoint and sequence number, behind the
    same pointer. *)
Definition sameButScripts (tx tx' : MsgTx) : Prop :=
  tx_Version tx' = tx_Version tx /\
  tx_TxOut tx' = tx_TxOut tx /\
  tx_LockTime tx' = tx_LockTime tx /\
  map PreviousOutPoint (tx_TxIn tx') = map PreviousOutPoint (tx_TxIn tx) /\
  map Sequence (tx_TxIn tx') = map Sequence (tx_TxIn tx) /\
  map Ptr (tx_TxIn tx') = map Ptr (tx_TxIn tx).

Section SigningErrors.

Context {lib : txscript.Lib} {Sec : Type} {secrets : SecretsSource Sec}.
Variable prevPkScripts : list bytes.
Variable chainParams : txscript.Params.

(** An error that one of the collaborators of the signing pass returned:
    the address extraction for one of the previous scripts, a key lookup,
    or the production of a signature script. *)
Definition collaboratorError (err : error) : Prop :=
  (exists pkScript,
     In pkScript prevPkScripts /\
     txscript.ExtractPkScriptAddrs pkScript chainParams = inl err) \/
  (exists (s : Sec) (addr : txscript.Address) (s' : Sec),
     GetKey s addr = (s', inl err)) \/
  (exists (tx : MsgTx) (i amount : Z) (pkScript : bytes)
          (privKey : txscript.PrivateKey) (compressed : bool),
     txscript.SignatureScript tx i amount pkScript txscript.SigHashAll
       privKey compressed = inl err).

End SigningErrors.

(** An input source whose coins are all locked: it answers every request
    with an error of its own. *)
Definition lockedCoins : InputSource unit :=
  fun w _ => (w, inl (callbackError true "coins are locked")).

(** * Properties *)

(** ** Facts about 64-bit arithmetic *)

Lemma wrap_in_range (z : Z) : Int64.in_range (Int64.wrap z).
Proof.
  unfold Int64.in_range, Int64.wrap, Int64.min_signed, Int64.max_signed.
  pose proof (Z.mod_pos_bound (z + 2 ^ 63) (2 ^ 64)). lia.
Qed.

Lemma wrap_small (z : Z) : Int64.in_range z -> Int64.wrap z = z.
Proof.
  unfold Int64.in_range, Int64.wrap, Int64.min_signed, Int64.max_signed.
  intros Hz. rewrite Z.mod_small; lia.
Qed.

Lemma wrap_congruent (a b k : Z) : a = b + k * 2 ^ 64 -> Int64.wrap a = Int64.wrap b.
Proof.
  intros ->. unfold Int64.wrap.
  replace (b + k * 2 ^ 64 + 2 ^ 63) with (b + 2 ^ 63 + k * 2 ^ 64) by ring.
  now rewrite Z.mod_add by lia.
Qed.

Lemma wrap_multiple (z : Z) : exists k, Int64.wrap z = z + k * 2 ^ 64.
Proof.
  exists (- ((z + 2 ^ 63) / 2 ^ 64)). unfold Int64.wrap.
  pose proof (Z.div_mod (z + 2 ^ 63) (2 ^ 64)). lia.
Qed.

Lemma sub_add_cancel (a b : Z) : Int64.in_range b -> Int64.sub (Int64.add a b) a = b.
Proof.
  intros Hb. unfold Int64.sub, Int64.add.
  destruct (wrap_multiple (a + b)) as [k ->].
  rewrite (wrap_congruent _ b k) by ring. now apply wrap_small.
Qed.

(** What is left after paying the outputs, the change and the fee, in the
    builder's own arithmetic, is nothing. *)
Lemma change_balances (inputAmount targetAmount fee : Z) :
  let changeAmount := Int64.sub (Int64.sub inputAmount targetAmount) fee in
  Int64.sub (Int64.sub inputAmount (Int64.add targetAmount changeAmount)) fee = 0.
Proof.
  unfold Int64.sub, Int64.add. cbv zeta.
  destruct (wrap_multiple (inputAmount - targetAmount)) as [k1 E1].
  rewrite E1.
  destruct (wrap_multiple (inputAmount - targetAmount + k1 * 2 ^ 64 - fee)) as [k2 E2].
  rewrite E2.
  match goal with |- context [Int64.wrap (targetAmount + ?c)] =>
    destruct (wrap_multiple (targetAmount + c)) as [k3 E3]; rewrite E3 end.
  match goal with |- context [Int64.wrap (inputAmount - ?c)] =>
    destruct (wrap_multiple (inputAmount - c)) as [k4 E4]; rewrite E4 end.
  rewrite (wrap_congruent _ 0 (k4 - k3 - k2 - k1)) by ring.
  reflexivity.
Qed.

Lemma exactOutputValue_app (outputs : list TxOut) (txOut : TxOut) :
  exactOutputValue (outputs ++ [txOut]) = exactOutputValue outputs + Value txOut.
Proof. induction outputs as [|o outputs IH]; simpl; lia. Qed.

(** On non-negative values whose sum fits, the accumulated sum is the
    ordinary one. *)
Lemma SumOutputValues_exact (outputs : list TxOut) :
  Forall (fun txOut => 0 <= Value txOut) outputs ->
  exactOutputValue outputs <= Int64.max_signed ->
  SumOutputValues outputs = exactOutputValue outputs.
Proof.
  unfold SumOutputValues. intros Hpos Hfits.
  enough (Hgen : forall acc, 0 <= acc -> acc + exactOutputValue outputs <= Int64.max_signed ->
            fold_left (fun totalOutput txOut => Int64.add totalOutput (Value txOut))
              outputs acc = acc + exactOutputValue outputs)
    by (now rewrite Hgen by lia).
  clear Hfits. induction Hpos as [|o outputs Ho Hpos IH]; intros acc Hacc Hfits; simpl in *.
  - lia.
  - assert (0 <= exactOutputValue outputs).
    { clear -Hpos. induction Hpos; simpl; lia. }
    unfold Int64.add at 2. rewrite wrap_small.
    + rewrite IH; lia.
    + unfold Int64.in_range, Int64.min_signed, Int64.max_signed in *. lia.
Qed.

Lemma SumOutputValues_app (outputs : list TxOut) (txOut : TxOut) :
  SumOutputValues (outputs ++ [txOut]) = Int64.add (SumOutputValues outputs) (Value txOut).
Proof. unfold SumOutputValues. now rewrite fold_left_app. Qed.

(** ** The builder *)

Section BuilderFacts.

Context {policy : Policy} {W : Type}.
Variable outputs : list TxOut.
Variable relayFeePerKb : Z.
Variable fetchInputs : InputSource W.
Variable fetchChange : ChangeSource W.

Local Abbreviation feeFor := (requiredFee outputs relayFeePerKb).
Local Abbreviation residual := (residualValue outputs relayFeePerKb).
Local Abbreviation exactResidual := (exactResidualValue outputs relayFeePerKb).
Local Abbreviation valid := (validAmounts outputs relayFeePerKb).
Local Abbreviation build :=
  (NewUnsignedTransaction outputs relayFeePerKb fetchInputs fetchChange).
Local Abbreviation pass := (loopBody outputs relayFeePerKb fetchInputs fetchChange).
Local Abbreviation passes := (loop outputs relayFeePerKb fetchInputs fetchChange).
Local Abbreviation step := (bodyStep outputs relayFeePerKb fetchInputs fetchChange).

Ltac unfold_body :=
  unfold loopBody, callFetchInputs, callFetchChange, bind, fail, ret; simpl.

Lemma loopBody_authored (T fee : Z) (env env' : Env W) (tx : AuthoredTx) :
  pass T fee env = (Ok (inr tx), env') ->
  authored outputs relayFeePerKb T tx.
Proof.
  unfold_body.
  destruct (fetchInputs (world env) (Int64.add T fee)) as [w [err|r]]; simpl;
    [discriminate|].
  destruct (total r <? Int64.add T fee); simpl; [discriminate|].
  destruct (Int64.sub (total r) T <? _) eqn:Hfee; simpl; [discriminate|].
  apply Z.ltb_ge in Hfee.
  destruct (negb _ && negb _) eqn:Hchange; simpl.
  - apply andb_true_iff in Hchange as [Hnz Hdust].
    apply negb_true_iff in Hnz, Hdust. apply Z.eqb_neq in Hnz.
    destruct (fetchChange w) as [w2 [err|changeScript]]; simpl; [discriminate|].
    destruct (len changeScript >? P2PKHPkScriptSize) eqn:Hsize; simpl; [discriminate|].
    intros [= <- <-].
    apply authored_with_change; trivial.
    rewrite Z.gtb_ltb in Hsize. now apply Z.ltb_ge in Hsize.
  - intros [= <- <-].
    apply authored_without_change; trivial.
    apply andb_false_iff in Hchange as [Hz|Hdust].
    + left. apply negb_false_iff in Hz. now apply Z.eqb_eq in Hz.
    + right. now apply negb_false_iff in Hdust.
Qed.

Lemma loop_authored (fuel : nat) (T fee : Z) (env env' : Env W) (tx : AuthoredTx) :
  passes fuel T fee env = (Ok tx, env') ->
  authored outputs relayFeePerKb T tx.
Proof.
  revert fee env. induction fuel as [|fuel IH]; intros fee env; simpl; [discriminate|].
  unfold bind.
  destruct (loopBody _ _ _ _ T fee env) as [[[fee'|tx']| | |] env1] eqn:Hbody;
    try discriminate.
  - apply IH.
  - intros [= <- <-]. eapply loopBody_authored, Hbody.
Qed.

Lemma loopBody_step (T fee : Z) (env : Env W) :
  let next := pass T fee env in
  step T fee env (fst next) (snd next).
Proof.
  unfold_body.
  destruct (fetchInputs (world env) (Int64.add T fee)) as [w [err|r]] eqn:Hin; simpl.
  { now apply step_inputs_error. }
  destruct (Z.ltb_spec (total r) (Int64.add T fee)) as [Hshort|Hshort]; simpl.
  { now apply step_insufficient. }
  destruct (Z.ltb_spec (Int64.sub (total r) T)
              (FeeForSerializeSize relayFeePerKb
                 (EstimateSerializeSize (len (inputs r)) outputs true)))
    as [Hfee|Hfee]; simpl.
  { now apply step_continue. }
  destruct (negb _ && negb _); simpl.
  - destruct (fetchChange w) as [w' [err|changeScript]] eqn:Hch; simpl.
    { eapply step_change_error; eassumption. }
    rewrite Z.gtb_ltb.
    destruct (Z.ltb_spec P2PKHPkScriptSize (len changeScript)); simpl.
    + eapply step_change_too_large; eassumption.
    + eapply step_return_with_change; eassumption.
  - now apply step_return_without_change.
Qed.

Lemma authored_exact (T : Z) (tx : AuthoredTx) :
  authored outputs relayFeePerKb T tx ->
  T = SumOutputValues outputs ->
  valid tx ->
  residual tx = exactResidual tx.
Proof.
  intros Hauth -> (Hpos & Hfits & Hinput & Hfee_pos).
  pose proof (SumOutputValues_exact outputs Hpos Hfits) as Hsum.
  assert (Htarget : 0 <= exactOutputValue outputs).
  { clear -Hpos. induction Hpos; simpl; lia. }
  unfold Int64.max_signed in *.
  assert (Hsmall_sub : forall a b, 0 <= a <= 2 ^ 63 - 1 -> 0 <= b <= 2 ^ 63 - 1 ->
            Int64.sub a b = a - b).
  { intros a b Ha Hb. apply wrap_small.
    unfold Int64.in_range, Int64.min_signed, Int64.max_signed. lia. }
  destruct Hauth as [r fee changeAmount Hfee Hsmall
                    |r changeScript fee changeAmount Hfee Hnz Hdust Hsize];
    subst fee changeAmount;
    unfold residualValue, exactResidualValue; simpl in *;
    rewrite Hsum in *;
    rewrite (Hsmall_sub (total r) (exactOutputValue outputs)) in * by lia.
  - apply Hsmall_sub; lia.
  - rewrite SumOutputValues_app, exactOutputValue_app, Hsum. simpl.
    rewrite (Hsmall_sub (total r - exactOutputValue outputs)) by lia.
    unfold Int64.add. rewrite wrap_small.
    + rewrite (Hsmall_sub (total r)) by lia. apply Hsmall_sub; lia.
    + unfold Int64.in_range, Int64.min_signed, Int64.max_signed. lia.
Qed.

(** C1 (amended).  After a successful [NewUnsignedTransaction] the total
    input minus the output values of the returned transaction minus the
    required fee is zero whenever a change output was produced; when none
    was produced the returned outputs are the requested ones and the
    difference is the change the builder withheld, which is zero or dust.
    The difference is computed as the builder computes, in 64-bit
    arithmetic; on amounts within the non-negative range it is the
    difference of ordinary integers. *)
Theorem NewUnsignedTransaction_conserves_value
    (fuel : nat) (w : W) (tx : AuthoredTx) (env' : Env W) :
  build fuel w
    = (Ok tx, env') ->
  (0 <= ChangeIndex tx -> residual tx = 0) /\
  (ChangeIndex tx < 0 ->
     tx_TxOut (Tx tx) = outputs /\
     (residual tx = 0 \/
      IsDustAmount (residual tx) P2PKHPkScriptSize relayFeePerKb = true)) /\
  (valid tx -> residual tx = exactResidual tx).
Proof.
  intros Hrun. apply loop_authored in Hrun.
  split; [|split]; [| |now apply (authored_exact (SumOutputValues outputs))].
  - destruct Hrun as [r fee changeAmount Hfee Hsmall
                     |r changeScript fee changeAmount Hfee Hnz Hdust Hsize];
      unfold residualValue; simpl; [lia|].
    intros _. rewrite SumOutputValues_app. simpl. apply change_balances.
  - destruct Hrun as [r fee changeAmount Hfee Hsmall
                     |r changeScript fee changeAmount Hfee Hnz Hdust Hsize];
      unfold residualValue; simpl; [|unfold len; lia].
    intros _. split; [reflexivity|]. exact Hsmall.
Qed.

(** C2.  After a successful [NewUnsignedTransaction] that produced a
    change output, the output at [ChangeIndex] has a non-zero value that
    [IsDustAmount] does not classify as dust for a script of
    [P2PKHPkScriptSize] bytes at the given fee rate. *)
Theorem NewUnsignedTransaction_change_not_dust
    (fuel : nat) (w : W) (tx : AuthoredTx) (env' : Env W) :
  build fuel w
    = (Ok tx, env') ->
  0 <= ChangeIndex tx ->
  exists change : TxOut,
    slice_get (tx_TxOut (Tx tx)) (ChangeIndex tx) = Some change /\
    Value change <> 0 /\
    IsDustAmount (Value change) P2PKHPkScriptSize relayFeePerKb = false.
Proof.
  intros Hrun Hindex. apply loop_authored in Hrun.
  destruct Hrun as [r fee changeAmount Hfee Hsmall
                   |r changeScript fee changeAmount Hfee Hnz Hdust Hsize];
    simpl in *; [lia|].
  exists (NewTxOut changeAmount changeScript). repeat split; trivial.
  unfold slice_get, len.
  destruct (Z.ltb_spec (Z.of_nat (length outputs)) 0); [lia|].
  rewrite Nat2Z.id. rewrite lookup_app_r by lia.
  now rewrite Nat.sub_diag.
Qed.

Lemma loop_insufficient (fuel : nat) (T : Z) :
  forall (fee : Z) (env : Env W),
    (forall ev, In ev (log env) -> ~ shortAnswer ev /\ ~ isFetchChange ev) ->
    let res := passes fuel T fee env in
    (exists ev, In ev (log (snd res)) /\ shortAnswer ev) ->
    fst res = Err insufficientFundsError /\
    forall ev, In ev (log (snd res)) -> ~ isFetchChange ev.
Proof.
  induction fuel as [|fuel IH]; intros fee env Hlog; simpl.
  - intros (ev & Hin & Hshort). now apply Hlog in Hin.
  - unfold bind. pose proof (loopBody_step T fee env) as Hstep.
    destruct (loopBody _ _ _ _ T fee env) as [o env1]. simpl in Hstep.
    inversion Hstep; subst; simpl;
      try (intros (ev & Hin & Hshort);
           repeat (apply in_app_iff in Hin as [Hin|Hin]);
           [ now apply Hlog in Hin
           | try (destruct Hin as [<-|[]]; simpl in Hshort; lia || tauto) .. ]).
    + split; [reflexivity|]. intros ev' Hin'.
      apply in_app_iff in Hin' as [Hin'|[<-|[]]]; [now apply Hlog|tauto].
    + apply IH. intros ev Hin.
      apply in_app_iff in Hin as [Hin|[<-|[]]]; [now apply Hlog|].
      simpl. split; [lia|tauto].
Qed.

Lemma loop_oversized (fuel : nat) (T : Z) :
  forall (fee : Z) (env : Env W),
    (forall ev, In ev (log env) -> ~ isFetchChange ev) ->
    let res := passes fuel T fee env in
    (exists ev, In ev (log (snd res)) /\ oversizedAnswer ev) ->
    fst res = Err (errorString
      "fee estimation requires change scripts no larger than P2PKH output scripts").
Proof.
  induction fuel as [|fuel IH]; intros fee env Hlog; simpl.
  - intros (ev & Hin & Hbig). apply Hlog in Hin. destruct ev as [?|[?|?]]; simpl in *; tauto.
  - unfold bind. pose proof (loopBody_step T fee env) as Hstep.
    destruct (loopBody _ _ _ _ T fee env) as [o env1]. simpl in Hstep.
    assert (Hold : forall ev, In ev (log env) -> ~ oversizedAnswer ev).
    { intros ev Hin Hbig. apply Hlog in Hin. destruct ev as [?|[?|?]]; simpl in *; tauto. }
    inversion Hstep; subst; simpl;
      try (intros (ev & Hin & Hbig);
           repeat (apply in_app_iff in Hin as [Hin|Hin]);
           [ now apply Hold in Hin
           | try (destruct Hin as [<-|[]]; simpl in Hbig; lia || tauto) .. ]).
    apply IH. intros ev Hin.
    apply in_app_iff in Hin as [Hin|[<-|[]]]; [now apply Hlog|].
    simpl. tauto.
Qed.

(** Every target the input source is asked for is the target amount plus
    a fee estimate. *)
Lemma loop_targets (fuel : nat) (T : Z) :
  forall (fee : Z) (env : Env W),
    (forall target answer, In (FetchInputs target answer) (log env) ->
       exists targetFee, target = Int64.add T targetFee) ->
    forall target answer,
      In (FetchInputs target answer) (log (snd (passes fuel T fee env))) ->
      exists targetFee, target = Int64.add T targetFee.
Proof.
  induction fuel as [|fuel IH]; intros fee env Hlog; simpl; [exact Hlog|].
  unfold bind. pose proof (loopBody_step T fee env) as Hstep.
  destruct (pass T fee env) as [o env1]. simpl in Hstep.
  assert (Hnext : forall target answer, In (FetchInputs target answer) (log env1) ->
            exists targetFee, target = Int64.add T targetFee).
  { intros target answer Hin.
    inversion Hstep; subst; simpl in Hin;
      repeat (apply in_app_iff in Hin as [Hin|Hin]);
      try (now apply Hlog in Hin);
      destruct Hin as [[= <- _]|[]]; now exists fee. }
  destruct o as [[fee'|tx]| | |]; simpl; trivial. now apply IH.
Qed.

(** C3.  Whenever the input source answers a call, without error, with a
    total strictly below the amount it was asked for (the target amount
    plus the fee estimate of that pass), [NewUnsignedTransaction] returns
    [insufficientFundsError], which is an [InputSourceError], and the
    change source is never called. *)
Theorem NewUnsignedTransaction_insufficient_funds
    (fuel : nat) (w : W) (target : Z) (r : Inputs) :
  let res := build fuel w in
  In (FetchInputs target (inr r)) (log (snd res)) ->
  total r < target ->
  (exists targetFee, target = Int64.add (SumOutputValues outputs) targetFee) /\
  fst res = Err insufficientFundsError /\
  isInputSourceError insufficientFundsError = true /\
  forall answer, ~ In (FetchChange answer) (log (snd res)).
Proof.
  intros res Hin Hshort.
  split.
  { eapply (loop_targets fuel (SumOutputValues outputs)); [|exact Hin].
    intros ? ? []. }
  destruct (loop_insufficient fuel (SumOutputValues outputs)
              (FeeForSerializeSize relayFeePerKb (EstimateSerializeSize 0 outputs true))
              (mkEnv w [])) as [Hres Hlog].
  - intros ev [].
  - exists (FetchInputs target (inr r)). split; [exact Hin|exact Hshort].
  - split; [exact Hres|]. split; [reflexivity|].
    intros answer Hch. apply Hlog in Hch. apply Hch. exact I.
Qed.

(** C6.  Whenever the change source answers, without error, with a script
    longer than [P2PKHPkScriptSize], [NewUnsignedTransaction] returns the
    fee estimation error instead of a transaction. *)
Theorem NewUnsignedTransaction_rejects_large_change_script
    (fuel : nat) (w : W) (changeScript : bytes) :
  let res :=
    build fuel w in
  In (FetchChange (inr changeScript)) (log (snd res)) ->
  P2PKHPkScriptSize < len changeScript ->
  fst res = Err (errorString
    "fee estimation requires change scripts no larger than P2PKH output scripts").
Proof.
  intros res Hin Hbig.
  apply (loop_oversized fuel (SumOutputValues outputs)
           (FeeForSerializeSize relayFeePerKb (EstimateSerializeSize 0 outputs true))
           (mkEnv w [])).
  - intros ev [].
  - exists (FetchChange (inr changeScript)). split; [exact Hin|exact Hbig].
Qed.

Lemma fetchInputsCalls_app (l l' : list event) :
  fetchInputsCalls (l ++ l') = (fetchInputsCalls l + fetchInputsCalls l')%nat.
Proof. unfold fetchInputsCalls. now rewrite List.filter_app, length_app. Qed.

(** A pass that does not [continue] ends the loop, whatever fuel is left. *)
Lemma loop_last_pass (fuel : nat) (T fee : Z) (env : Env W) :
  let next := pass T fee env in
  let res := passes (S fuel) T fee env in
  (forall fee', fst next <> Ok (inl fee')) ->
  fst res <> OutOfFuel /\ snd res = snd next.
Proof.
  simpl. unfold bind.
  destruct (loopBody _ _ _ _ T fee env) as [[[fee'|tx]| | |] env1] eqn:Hbody;
    simpl; intros Hstop; try (split; [discriminate|reflexivity]).
  - now destruct (Hstop fee').
  - exfalso. pose proof (loopBody_step T fee env) as Hstep.
    rewrite Hbody in Hstep. inversion Hstep.
Qed.

(** Every pass calls the input source exactly once. *)
Lemma loopBody_one_call (T fee : Z) (env : Env W) :
  let next := pass T fee env in
  fetchInputsCalls (log (snd next)) = S (fetchInputsCalls (log env)).
Proof.
  pose proof (loopBody_step T fee env) as Hstep. cbv zeta in *.
  destruct (loopBody _ _ _ _ T fee env) as [o env1]. simpl in *.
  inversion Hstep; subst; simpl; rewrite !fetchInputsCalls_app; simpl;
    unfold fetchInputsCalls; simpl; lia.
Qed.

Lemma loopBody_continue (T fee fee' : Z) (env env1 : Env W) :
  pass T fee env
    = (Ok (inl fee'), env1) ->
  exists (w : W) (r : Inputs),
    fetchInputs (world env) (Int64.add T fee) = (w, inr r) /\
    fee' = feeFor (len (inputs r)) /\
    Int64.sub (total r) T < fee' /\
    world env1 = w.
Proof.
  intros Hbody. pose proof (loopBody_step T fee env) as Hstep.
  rewrite Hbody in Hstep. simpl in Hstep. inversion Hstep; subst.
  exists w, r. repeat split; trivial.
Qed.

(** C7 (amended).  With an input source that always returns exactly the
    total it was asked for, the loop ends within two calls of the input
    source provided the inputs of the second answer do not require a
    higher fee than the inputs of the first. *)
Theorem NewUnsignedTransaction_exact_source_two_calls (fuel : nat) (w : W) :
  let T := SumOutputValues outputs in
  let res :=
    build fuel w in
  (forall w0 target w1 r, fetchInputs w0 target = (w1, inr r) -> total r = target) ->
  (forall n, Int64.in_range (feeFor n)) ->
  (forall w1 r1 w2 r2,
     fetchInputs w (Int64.add T (feeFor 0)) = (w1, inr r1) ->
     fetchInputs w1 (Int64.add T (feeFor (len (inputs r1)))) = (w2, inr r2) ->
     feeFor (len (inputs r2)) <= feeFor (len (inputs r1))) ->
  (2 <= fuel)%nat ->
  fst res <> OutOfFuel /\ (fetchInputsCalls (log (snd res)) <= 2)%nat.
Proof.
  intros T res Hexact Hrange Hsecond Hfuel. subst res.
  destruct fuel as [|[|fuel]]; try lia.
  unfold NewUnsignedTransaction. fold T. fold (feeFor 0).
  set (env0 := mkEnv w []).
  destruct (pass T (feeFor 0) env0)
    as [o env1] eqn:Hfirst.
  assert (Hcalls1 : fetchInputsCalls (log env1) = 1%nat).
  { pose proof (loopBody_one_call T (feeFor 0) env0) as H1.
    cbv zeta in H1. now rewrite Hfirst in H1. }
  assert (Hstop1 : (forall fee', o <> Ok (inl fee')) \/ exists fee', o = Ok (inl fee')).
  { destruct o as [[fee'|tx]| | |]; eauto; left; discriminate. }
  destruct Hstop1 as [Hstop1|[fee1 ->]].
  - pose proof (loop_last_pass (S fuel) T (feeFor 0) env0) as Hlast.
    cbv zeta in Hlast. rewrite Hfirst in Hlast.
    destruct (Hlast Hstop1) as [Hres Henv]. split; [exact Hres|].
    rewrite Henv. simpl. lia.
  - assert (Hloop : passes (S (S fuel)) T
                      (feeFor 0) env0
                    = passes (S fuel) T fee1 env1).
    { change (passes (S (S fuel)) T
                (feeFor 0) env0)
        with (bind (pass T
                      (feeFor 0))
                   (fun next => match next with
                                | inl fee => loop outputs relayFeePerKb fetchInputs
                                               fetchChange (S fuel) T fee
                                | inr tx => ret tx
                                end) env0).
      unfold bind. now rewrite Hfirst. }
    rewrite Hloop.
    apply loopBody_continue in Hfirst as (w1 & r1 & Hin1 & -> & _ & Hw1).
    destruct (pass T
                (feeFor (len (inputs r1))) env1) as [o2 env2] eqn:Hsecond_pass.
    assert (Hstop2 : forall fee', o2 <> Ok (inl fee')).
    { intros fee2 ->.
      apply loopBody_continue in Hsecond_pass as (w2 & r2 & Hin2 & -> & Hlow & _).
      rewrite Hw1 in Hin2.
      pose proof (Hexact _ _ _ _ Hin2) as Htotal. rewrite Htotal in Hlow.
      rewrite sub_add_cancel in Hlow by apply Hrange.
      pose proof (Hsecond _ _ _ _ Hin1 Hin2). lia. }
    pose proof (loop_last_pass fuel T (feeFor (len (inputs r1))) env1) as Hlast.
    pose proof (loopBody_one_call T (feeFor (len (inputs r1))) env1) as Hcalls2.
    cbv zeta in Hlast, Hcalls2. rewrite Hsecond_pass in Hlast, Hcalls2.
    destruct (Hlast Hstop2) as [Hres Henv]. split; [exact Hres|].
    rewrite Henv. simpl in *. lia.
Qed.

End BuilderFacts.

(** ** Output randomization *)

Lemma slice_get_in_range {A : Type} (l : list A) (i : Z) :
  0 <= i < len l -> exists x, slice_get l i = Some x /\ l !! Z.to_nat i = Some x.
Proof.
  unfold slice_get, len. intros Hi.
  destruct (Z.ltb_spec i 0); [lia|].
  destruct (lookup_lt_is_Some_2 l (Z.to_nat i)) as [x Hx]; [lia|].
  exists x. now rewrite Hx.
Qed.

Lemma slice_get_negative {A : Type} (l : list A) (i : Z) :
  i < 0 -> slice_get l i = None.
Proof. unfold slice_get. intros Hi. destruct (Z.ltb_spec i 0); [reflexivity|lia]. Qed.

Lemma slice_get_nonneg {A : Type} (l : list A) (i : Z) :
  0 <= i -> slice_get l i = l !! Z.to_nat i.
Proof. unfold slice_get. intros Hi. destruct (Z.ltb_spec i 0); [lia|reflexivity]. Qed.

(** Overwriting position [j] with [x] trades the old element for [x]. *)
Lemma insert_trades {A : Type} (l : list A) (j : nat) (b x : A) :
  l !! j = Some b -> b :: <[j := x]> l ≡ₚ x :: l.
Proof.
  revert j. induction l as [|y l IH]; intros [|j] Hj; simpl in *; try discriminate.
  - injection Hj as ->. apply perm_swap.
  - rewrite (perm_swap y b). rewrite (IH j Hj). apply perm_swap.
Qed.

(** Writing each of two elements into the other's position permutes the list. *)
Lemma swap_Permutation {A : Type} (l : list A) (i j : nat) (a b : A) :
  l !! i = Some a -> l !! j = Some b -> <[i := b]> (<[j := a]> l) ≡ₚ l.
Proof.
  revert i j. induction l as [|x l IH]; intros [|i] [|j] Hi Hj; simpl in *;
    try discriminate.
  - injection Hi as ->. injection Hj as ->. reflexivity.
  - injection Hi as ->. now apply insert_trades.
  - injection Hj as ->. now apply insert_trades.
  - now rewrite (IH i j).
Qed.

Lemma RandomizeOutputPosition_unfold (r index : Z) (outputs : list TxOut) :
  RandomizeOutputPosition r index outputs =
  match slice_get outputs index with
  | None => (Panic (IndexOutOfRange index (len outputs)), outputs)
  | Some atIndex =>
      match slice_get outputs r with
      | None => (Panic (IndexOutOfRange r (len outputs)), outputs)
      | Some atR => (Ok r, slice_set (slice_set outputs r atIndex) index atR)
      end
  end.
Proof.
  unfold RandomizeOutputPosition, bind, get, slice_at, modify, ret, throw. simpl.
  destruct (slice_get outputs index); simpl; [|reflexivity].
  destruct (slice_get outputs r); reflexivity.
Qed.

Lemma RandomizeChangePosition_unfold (r : Z) (tx : AuthoredTx) :
  RandomizeChangePosition r tx =
  match RandomizeOutputPosition r (ChangeIndex tx) (tx_TxOut (Tx tx)) with
  | (Ok newIndex, txOut) =>
      (Ok tt, set_ChangeIndex newIndex (set_Tx (set_TxOut txOut (Tx tx)) tx))
  | (Err err, txOut) => (Err err, set_Tx (set_TxOut txOut (Tx tx)) tx)
  | (Panic p, txOut) => (Panic p, set_Tx (set_TxOut txOut (Tx tx)) tx)
  | (OutOfFuel, txOut) => (OutOfFuel, set_Tx (set_TxOut txOut (Tx tx)) tx)
  end.
Proof.
  unfold RandomizeChangePosition, bind, get, zoom, modify. simpl.
  destruct (RandomizeOutputPosition r (ChangeIndex tx) (tx_TxOut (Tx tx)))
    as [[newIndex|err|p|] txOut]; reflexivity.
Qed.

Lemma set_TxOut_same (tx : AuthoredTx) :
  set_Tx (set_TxOut (tx_TxOut (Tx tx)) (Tx tx)) tx = tx.
Proof. destruct tx as [[] ? ? ? ?]. reflexivity. Qed.

(** C8.  For a valid [index] and a draw [r] within the outputs,
    [RandomizeOutputPosition] returns [r] and leaves a permutation of the
    outputs in which the elements at [index] and [r] have changed places
    and every other position is untouched; [RandomizeChangePosition]
    stores [r] as the new [ChangeIndex], which designates the output the
    old [ChangeIndex] designated. *)
Theorem RandomizeOutputPosition_swaps (outputs : list TxOut) (index r : Z) :
  0 <= index < len outputs ->
  0 <= r < len outputs ->
  exists outputs' : list TxOut,
    RandomizeOutputPosition r index outputs = (Ok r, outputs') /\
    outputs' ≡ₚ outputs /\
    slice_get outputs' r = slice_get outputs index /\
    slice_get outputs' index = slice_get outputs r /\
    (forall j, j <> index -> j <> r -> slice_get outputs' j = slice_get outputs j) /\
    forall tx : AuthoredTx,
      tx_TxOut (Tx tx) = outputs ->
      ChangeIndex tx = index ->
      exists tx' : AuthoredTx,
        RandomizeChangePosition r tx = (Ok tt, tx') /\
        ChangeIndex tx' = r /\
        tx_TxOut (Tx tx') = outputs' /\
        slice_get (tx_TxOut (Tx tx')) (ChangeIndex tx')
          = slice_get (tx_TxOut (Tx tx)) (ChangeIndex tx) /\
        tx_TxIn (Tx tx') = tx_TxIn (Tx tx) /\
        PrevScripts tx' = PrevScripts tx /\
        PrevInputValues tx' = PrevInputValues tx /\
        TotalInput tx' = TotalInput tx.
Proof.
  intros Hindex Hr.
  destruct (slice_get_in_range outputs index Hindex) as (atIndex & Hgi & Hli).
  destruct (slice_get_in_range outputs r Hr) as (atR & Hgr & Hlr).
  exists (slice_set (slice_set outputs r atIndex) index atR).
  assert (Hrun : RandomizeOutputPosition r index outputs
                 = (Ok r, slice_set (slice_set outputs r atIndex) index atR)).
  { rewrite RandomizeOutputPosition_unfold. now rewrite Hgi, Hgr. }
  assert (Hat_r : slice_get (slice_set (slice_set outputs r atIndex) index atR) r
                  = slice_get outputs index).
  { rewrite Hgi, slice_get_nonneg by lia. unfold slice_set.
    destruct (decide (Z.to_nat index = Z.to_nat r)) as [Heq|Hne].
    - rewrite Heq in *. rewrite list_lookup_insert_eq.
      + congruence.
      + rewrite length_insert. unfold len in Hr. lia.
    - rewrite list_lookup_insert_ne by exact Hne.
      apply list_lookup_insert_eq. unfold len in Hr. lia. }
  split; [exact Hrun|].
  split; [now apply swap_Permutation|].
  split; [exact Hat_r|].
  split.
  { rewrite Hgr, slice_get_nonneg by lia. unfold slice_set.
    apply list_lookup_insert_eq. rewrite length_insert. unfold len in Hindex. lia. }
  split.
  { intros j Hji Hjr. unfold slice_get, slice_set.
    destruct (Z.ltb_spec j 0) as [Hneg|Hpos]; [reflexivity|].
    rewrite !list_lookup_insert_ne by lia. reflexivity. }
  intros tx Houts Hidx.
  rewrite RandomizeChangePosition_unfold, Hidx, Houts, Hrun.
  eexists. split; [reflexivity|]. simpl.
  repeat split. exact Hat_r.
Qed.

(** C9.  With the sentinel [ChangeIndex = -1], [RandomizeChangePosition]
    indexes the outputs at [-1]: it panics, whatever was drawn, and
    leaves the authored transaction as it was. *)
Theorem RandomizeChangePosition_without_change_panics (r : Z) (tx : AuthoredTx) :
  ChangeIndex tx = -1 ->
  slice_get (tx_TxOut (Tx tx)) (ChangeIndex tx) = None /\
  RandomizeChangePosition r tx
    = (Panic (IndexOutOfRange (-1) (len (tx_TxOut (Tx tx)))), tx).
Proof.
  intros Hsentinel. rewrite Hsentinel.
  assert (Hget : slice_get (tx_TxOut (Tx tx)) (-1) = None)
    by (apply slice_get_negative; lia).
  split; [exact Hget|].
  rewrite RandomizeChangePosition_unfold, RandomizeOutputPosition_unfold.
  rewrite Hsentinel, Hget. now rewrite set_TxOut_same.
Qed.

(** ** Input signing *)

Lemma map_lookup {A B : Type} (f : A -> B) (l : list A) (j : nat) :
  map f l !! j = option_map f (l !! j).
Proof. revert j. induction l as [|x l IH]; intros [|j]; simpl; trivial. Qed.

(** A write through a pointer changes no pointer, and changes the struct
    at every entry that holds the pointer written through. *)
Lemma writeThrough_keeps {B : Type} (f : TxIn -> B) (p : nat) (script : bytes)
    (inputs : list TxIn) :
  (forall txIn, f (set_SignatureScript script txIn) = f txIn) ->
  map f (writeThrough p script inputs) = map f inputs.
Proof.
  intros Hf. unfold writeThrough. rewrite map_map. apply map_ext.
  intros txIn. now destruct (Nat.eqb (Ptr txIn) p).
Qed.

Lemma writeThrough_Ptr (p : nat) (script : bytes) (inputs : list TxIn) :
  map Ptr (writeThrough p script inputs) = map Ptr inputs.
Proof. now apply writeThrough_keeps. Qed.

Lemma writeThrough_length (p : nat) (script : bytes) (inputs : list TxIn) :
  length (writeThrough p script inputs) = length inputs.
Proof. apply length_map. Qed.

Lemma writeThrough_lookup (p : nat) (script : bytes) (inputs : list TxIn) (j : nat) :
  writeThrough p script inputs !! j =
  match inputs !! j with
  | Some txIn =>
      Some (if Nat.eqb (Ptr txIn) p then set_SignatureScript script txIn else txIn)
  | None => None
  end.
Proof.
  revert j. induction inputs as [|txIn inputs IH]; intros [|j]; simpl; trivial.
Qed.

(** Where the entries are distinct pointers the write shows at one
    position only. *)
Lemma writeThrough_NoDup (script : bytes) (inputs : list TxIn) (i : nat) (txIn : TxIn) :
  NoDup (map Ptr inputs) ->
  inputs !! i = Some txIn ->
  writeThrough (Ptr txIn) script inputs = <[i := set_SignatureScript script txIn]> inputs.
Proof.
  intros Hdistinct Hi. apply list_eq. intros j.
  rewrite writeThrough_lookup.
  destruct (decide (j = i)) as [->|Hne].
  - rewrite Hi, Nat.eqb_refl. symmetry. apply list_lookup_insert_eq.
    now apply lookup_lt_Some in Hi.
  - rewrite list_lookup_insert_ne by congruence.
    destruct (inputs !! j) as [other|] eqn:Hj; [|reflexivity].
    destruct (Nat.eqb_spec (Ptr other) (Ptr txIn)) as [Heq|_]; [|reflexivity].
    destruct Hne. eapply NoDup_lookup; [exact Hdistinct| |].
    + rewrite map_lookup, Hj. reflexivity.
    + rewrite map_lookup, Hi. simpl. now rewrite Heq.
Qed.

Section SigningFacts.

Context {lib : txscript.Lib} {Sec : Type} {secrets : SecretsSource Sec}.
Variable prevPkScripts : list bytes.
Variable inputValues : list Z.
Variable chainParams : txscript.Params.

Lemma signInput_step (i : Z) (st : Signing Sec txscript.Address) :
  let next := signInput prevPkScripts inputValues chainParams i st in
  signStep prevPkScripts inputValues chainParams i st (fst next) (snd next).
Proof.
  unfold signInput, storeSignatureScript, callGetKey, bind, slice_at, liftResult,
    get, modify, ret, fail, throw. simpl.
  destruct (slice_get prevPkScripts i) as [pkScript|] eqn:Hpk; simpl;
    [|now apply sign_no_script].
  destruct (txscript.ExtractPkScriptAddrs pkScript chainParams)
    as [err|[|addr rest]] eqn:Hex; simpl.
  { eapply sign_extract_error; eassumption. }
  { eapply sign_no_address; eassumption. }
  destruct (GetKey (sgSecrets st) addr) as [s [err|key]] eqn:Hkey; simpl.
  { eapply sign_key_error; eassumption. }
  destruct (slice_get inputValues i) as [inputValue|] eqn:Hval; simpl;
    [|eapply sign_no_value; eassumption].
  destruct (txscript.SignatureScript (sgTx st) i (txscript.amountToSatoshi inputValue)
              pkScript txscript.SigHashAll (fst key) (snd key))
    as [err|script] eqn:Hsig; simpl.
  { eapply sign_signature_error; eassumption. }
  destruct (slice_get (tx_TxIn (sgTx st)) i) as [txIn|] eqn:Hin; simpl.
  - eapply sign_stored; eassumption.
  - eapply sign_no_input; eassumption.
Qed.

Lemma signedRange_nothing (from : nat) (tx : MsgTx) : signedRange prevPkScripts from 0 tx tx.
Proof.
  repeat split.
  - now destruct tx.
  - intros j Hj. lia.
Qed.

(** Whatever a pass does, the slice holds the pointers it held. *)
Lemma signInput_Ptr (i : Z) (st : Signing Sec txscript.Address) :
  map Ptr (tx_TxIn (sgTx (snd (signInput prevPkScripts inputValues chainParams i st))))
  = map Ptr (tx_TxIn (sgTx st)).
Proof.
  pose proof (signInput_step i st) as Hstep. cbv zeta in Hstep.
  destruct (signInput prevPkScripts inputValues chainParams i st) as [o st1].
  simpl in *. inversion Hstep; subst; simpl; try reflexivity. apply writeThrough_Ptr.
Qed.

Lemma signInput_Ok (k : nat) (st st' : Signing Sec txscript.Address) :
  NoDup (map Ptr (tx_TxIn (sgTx st))) ->
  signInput prevPkScripts inputValues chainParams (Z.of_nat k) st = (Ok tt, st') ->
  signedRange prevPkScripts k 1 (sgTx st) (sgTx st').
Proof.
  intros Hdistinct Hrun. pose proof (signInput_step (Z.of_nat k) st) as Hstep.
  rewrite Hrun in Hstep. simpl in Hstep. inversion Hstep; subst. simpl.
  match goal with H : slice_get (tx_TxIn _) _ = Some _ |- _ => rename H into Hin end.
  match goal with H : slice_get prevPkScripts _ = Some _ |- _ => rename H into Hpk end.
  rewrite slice_get_nonneg, Nat2Z.id in Hin by lia.
  rewrite slice_get_nonneg, Nat2Z.id in Hpk by lia.
  rewrite (writeThrough_NoDup script _ _ _ Hdistinct Hin).
  repeat split; simpl.
  - apply length_insert.
  - intros j Hj. apply list_lookup_insert_ne. lia.
  - intros j Hj. assert (j = k) as -> by lia.
    exists txIn, script. split; [exact Hin|]. split.
    + apply list_lookup_insert_eq. now apply lookup_lt_Some in Hin.
    + exists (sgTx st), (txscript.amountToSatoshi inputValue), pkScript,
        (fst key), (snd key). now split.
Qed.

Lemma signInput_failed (i : Z) (o : outcome unit) (st st' : Signing Sec txscript.Address) :
  signInput prevPkScripts inputValues chainParams i st = (o, st') ->
  o <> Ok tt ->
  sgTx st' = sgTx st.
Proof.
  intros Hrun Hfailed. pose proof (signInput_step i st) as Hstep.
  rewrite Hrun in Hstep. simpl in Hstep.
  inversion Hstep; subst; try reflexivity. now destruct Hfailed.
Qed.

Lemma signedRange_extend (from count : nat) (tx tx1 tx2 : MsgTx) :
  signedRange prevPkScripts from 1 tx tx1 ->
  signedRange prevPkScripts (S from) count tx1 tx2 ->
  signedRange prevPkScripts from (S count) tx tx2.
Proof.
  intros (Heq1 & Hlen1 & Hout1 & Hin1) (Heq2 & Hlen2 & Hout2 & Hin2).
  repeat split.
  - rewrite Heq2 at 1. rewrite Heq1. reflexivity.
  - congruence.
  - intros j Hj. rewrite Hout2 by lia. apply Hout1. lia.
  - intros j Hj. destruct (decide (j = from)) as [->|Hne].
    + destruct (Hin1 from) as (txIn & script & Hold & Hnew & Hprod); [lia|].
      exists txIn, script. repeat split; trivial.
      rewrite Hout2 by lia. exact Hnew.
    + destruct (Hin2 j) as (txIn & script & Hold & Hnew & Hprod); [lia|].
      exists txIn, script. repeat split; trivial.
      rewrite <- Hold. symmetry. apply Hout1. lia.
Qed.

Lemma signLoop_unfold (todo : nat) (i : Z) (st : Signing Sec txscript.Address) :
  signLoop prevPkScripts inputValues chainParams (S todo) i st =
  match signInput prevPkScripts inputValues chainParams i st with
  | (Ok _, st') => signLoop prevPkScripts inputValues chainParams todo (i + 1) st'
  | (Err err, st') => (Err err, st')
  | (Panic p, st') => (Panic p, st')
  | (OutOfFuel, st') => (OutOfFuel, st')
  end.
Proof. reflexivity. Qed.

(** A signing loop that completes over distinct pointers has signed
    exactly its range. *)
Lemma signLoop_Ok (todo : nat) :
  forall (k : nat) (st st' : Signing Sec txscript.Address),
    NoDup (map Ptr (tx_TxIn (sgTx st))) ->
    signLoop prevPkScripts inputValues chainParams todo (Z.of_nat k) st = (Ok tt, st') ->
    signedRange prevPkScripts k todo (sgTx st) (sgTx st').
Proof.
  induction todo as [|todo IH]; intros k st st' Hdistinct.
  - simpl. unfold ret. intros [= <-]. apply signedRange_nothing.
  - rewrite signLoop_unfold.
    pose proof (signInput_Ptr (Z.of_nat k) st) as Hptr.
    destruct (signInput prevPkScripts inputValues chainParams (Z.of_nat k) st)
      as [[[]| | |] st1] eqn:Hfirst; try discriminate.
    replace (Z.of_nat k + 1) with (Z.of_nat (S k)) by lia.
    intros Hrest. eapply signedRange_extend.
    + apply signInput_Ok; [exact Hdistinct|exact Hfirst].
    + apply IH; [|exact Hrest]. simpl in Hptr. now rewrite Hptr.
Qed.

(** The loop over [a + b] inputs is the loop over the first [a] followed,
    if it completes, by the loop over the remaining [b]. *)
Lemma signLoop_split (a b : nat) :
  forall (i : Z) (st : Signing Sec txscript.Address),
    signLoop prevPkScripts inputValues chainParams (a + b) i st =
    match signLoop prevPkScripts inputValues chainParams a i st with
    | (Ok _, st') =>
        signLoop prevPkScripts inputValues chainParams b (i + Z.of_nat a) st'
    | (Err err, st') => (Err err, st')
    | (Panic p, st') => (Panic p, st')
    | (OutOfFuel, st') => (OutOfFuel, st')
    end.
Proof.
  induction a as [|a IH]; intros i st.
  - simpl. unfold ret. now rewrite Z.add_0_r.
  - change (S a + b)%nat with (S (a + b)). rewrite !signLoop_unfold.
    destruct (signInput prevPkScripts inputValues chainParams i st)
      as [[[]| | |] st1]; try reflexivity.
    rewrite IH. replace (i + 1 + Z.of_nat a) with (i + Z.of_nat (S a)) by lia.
    reflexivity.
Qed.

Lemma signInput_no_address (i : Z) (pkScript : bytes)
    (st : Signing Sec txscript.Address) :
  slice_get prevPkScripts i = Some pkScript ->
  txscript.ExtractPkScriptAddrs pkScript chainParams = inr [] ->
  signInput prevPkScripts inputValues chainParams i st
    = (Panic (IndexOutOfRange 0 0), st).
Proof.
  intros Hpk Hex.
  unfold signInput, bind, slice_at, liftResult, ret, throw. rewrite Hpk. simpl.
  rewrite Hex. reflexivity.
Qed.

Lemma signLoop_lookups (todo : nat) :
  forall (i : Z) (st : Signing Sec txscript.Address) (addr : txscript.Address),
    In addr (sgLookups (snd (signLoop prevPkScripts inputValues chainParams todo i st))) ->
    In addr (sgLookups st) \/ firstExtracted prevPkScripts chainParams addr.
Proof.
  induction todo as [|todo IH]; intros i st addr.
  - simpl. tauto.
  - rewrite signLoop_unfold.
    pose proof (signInput_step i st) as Hstep. cbv zeta in Hstep.
    destruct (signInput prevPkScripts inputValues chainParams i st) as [o st1].
    simpl in Hstep.
    assert (Hone : In addr (sgLookups st1) ->
              In addr (sgLookups st) \/ firstExtracted prevPkScripts chainParams addr).
    { inversion Hstep; subst; simpl; try tauto;
        (intros Hin; apply in_app_iff in Hin as [Hin|[<-|[]]]; [now left|right];
         match goal with H : slice_get prevPkScripts i = Some ?pk |- _ =>
           exists (Z.to_nat i), pk, rest; split; [|assumption];
           unfold slice_get in H; destruct (i <? 0); [discriminate|exact H]
         end). }
    destruct o as [[]| | |]; simpl; trivial.
    intros Hin. apply IH in Hin as [Hin|Hin]; [now apply Hone|now right].
Qed.

End SigningFacts.

Section AddAllFacts.

Context {lib : txscript.Lib} {Sec : Type} {secrets : SecretsSource Sec}.

Lemma AddAllInputScripts_unfold (prevPkScripts : list bytes) (inputValues : list Z)
    (st : Signing Sec txscript.Address) :
  AddAllInputScripts prevPkScripts inputValues st =
  if len (tx_TxIn (sgTx st)) =? len prevPkScripts then
    signLoop prevPkScripts inputValues (ChainParams (sgSecrets st))
      (length (tx_TxIn (sgTx st))) 0 st
  else
    (Err (errorString "tx.TxIn and prevPkScripts slices must have equal length"), st).
Proof.
  unfold AddAllInputScripts, bind, get, fail. simpl.
  now destruct (len (tx_TxIn (sgTx st)) =? len prevPkScripts).
Qed.

(** The length check that is there: a transaction whose number of inputs
    differs from the number of previous scripts is refused untouched. *)
Lemma AddAllInputScripts_checks_prevPkScripts (prevPkScripts : list bytes)
    (inputValues : list Z) (st : Signing Sec txscript.Address) :
  len (tx_TxIn (sgTx st)) <> len prevPkScripts ->
  AddAllInputScripts prevPkScripts inputValues st =
  (Err (errorString "tx.TxIn and prevPkScripts slices must have equal length"), st).
Proof.
  intros Hlen. rewrite AddAllInputScripts_unfold.
  now destruct (Z.eqb_spec (len (tx_TxIn (sgTx st))) (len prevPkScripts)).
Qed.

(** When the first [i] inputs have been signed and the pass for input
    [i] ends in [o], other than a normal completion, that is how the call
    ends. *)
Lemma AddAllInputScripts_stops (prevPkScripts : list bytes) (inputValues : list Z)
    (st st_i st_e : Signing Sec txscript.Address) (i : nat) (o : outcome unit) :
  len (tx_TxIn (sgTx st)) = len prevPkScripts ->
  (i < length (tx_TxIn (sgTx st)))%nat ->
  signLoop prevPkScripts inputValues (ChainParams (sgSecrets st)) i 0 st = (Ok tt, st_i) ->
  signInput prevPkScripts inputValues (ChainParams (sgSecrets st)) (Z.of_nat i) st_i
    = (o, st_e) ->
  o <> Ok tt ->
  AddAllInputScripts prevPkScripts inputValues st = (o, st_e).
Proof.
  intros Hlen Hi Hprefix Hfail Hnot.
  rewrite AddAllInputScripts_unfold, Hlen, Z.eqb_refl.
  replace (length (tx_TxIn (sgTx st)))
    with (i + S (length (tx_TxIn (sgTx st)) - S i))%nat by lia.
  rewrite signLoop_split, Hprefix. cbn beta iota.
  rewrite signLoop_unfold, Z.add_0_l, Hfail.
  destruct o as [[]| | |]; try reflexivity. now destruct Hnot.
Qed.

(** C4 (amended).  On a transaction whose inputs are distinct pointers:
    when the pass for input [i] returns an error after the inputs before
    it were signed, [AddAllInputScripts] returns that error at once.  The
    inputs at positions [i] and after are as they were; each input before
    [i] has already had its signature script overwritten with the script
    produced for it; nothing else in the transaction has changed. *)
Theorem AddAllInputScripts_fails_fast (prevPkScripts : list bytes)
    (inputValues : list Z) (st st_i st_e : Signing Sec txscript.Address)
    (i : nat) (err : error) :
  NoDup (map Ptr (tx_TxIn (sgTx st))) ->
  len (tx_TxIn (sgTx st)) = len prevPkScripts ->
  (i < length (tx_TxIn (sgTx st)))%nat ->
  signLoop prevPkScripts inputValues (ChainParams (sgSecrets st)) i 0 st = (Ok tt, st_i) ->
  signInput prevPkScripts inputValues (ChainParams (sgSecrets st)) (Z.of_nat i) st_i
    = (Err err, st_e) ->
  AddAllInputScripts prevPkScripts inputValues st = (Err err, st_e) /\
  sgTx st_e = set_TxIn (tx_TxIn (sgTx st_e)) (sgTx st) /\
  length (tx_TxIn (sgTx st_e)) = length (tx_TxIn (sgTx st)) /\
  (forall j, (i <= j)%nat -> tx_TxIn (sgTx st_e) !! j = tx_TxIn (sgTx st) !! j) /\
  (forall j, (j < i)%nat ->
     exists (txIn : TxIn) (script : bytes),
       tx_TxIn (sgTx st) !! j = Some txIn /\
       tx_TxIn (sgTx st_e) !! j = Some (set_SignatureScript script txIn) /\
       producedFor prevPkScripts j script).
Proof.
  intros Hdistinct Hlen Hi Hprefix Hfail.
  split.
  { eapply AddAllInputScripts_stops; eauto; discriminate. }
  apply signLoop_Ok with (k := 0%nat) in Hprefix; [|exact Hdistinct].
  apply signInput_failed in Hfail; [|discriminate]. rewrite Hfail.
  destruct Hprefix as (Heq & Hsame_len & Hout & Hin).
  repeat split; trivial.
  - intros j Hj. apply Hout. lia.
  - intros j Hj. apply Hin. lia.
Qed.

(** C10.  When the inputs before [i] were signed and extraction succeeds
    for the previous script of input [i] but yields no address,
    [AddAllInputScripts] indexes the empty address list at 0 and panics
    instead of returning an error; and whatever the call does, [GetKey] is
    only ever called with the first address extracted from a previous
    script. *)
Theorem AddAllInputScripts_no_address_panics (prevPkScripts : list bytes)
    (inputValues : list Z) (st st_i : Signing Sec txscript.Address)
    (i : nat) (pkScript : bytes) :
  len (tx_TxIn (sgTx st)) = len prevPkScripts ->
  signLoop prevPkScripts inputValues (ChainParams (sgSecrets st)) i 0 st = (Ok tt, st_i) ->
  prevPkScripts !! i = Some pkScript ->
  txscript.ExtractPkScriptAddrs pkScript (ChainParams (sgSecrets st)) = inr [] ->
  slice_get (@nil txscript.Address) 0 = None /\
  AddAllInputScripts prevPkScripts inputValues st = (Panic (IndexOutOfRange 0 0), st_i) /\
  forall addr,
    In addr (sgLookups (snd (AddAllInputScripts prevPkScripts inputValues st))) ->
    In addr (sgLookups st) \/
    firstExtracted prevPkScripts (ChainParams (sgSecrets st)) addr.
Proof.
  intros Hlen Hprefix Hpk Hex.
  split; [reflexivity|]. split.
  - apply AddAllInputScripts_stops with (st_i := st_i) (i := i); trivial.
    + apply lookup_lt_Some in Hpk. unfold len in Hlen. lia.
    + eapply signInput_no_address; [|exact Hex].
      rewrite slice_get_nonneg, Nat2Z.id by lia. exact Hpk.
    + discriminate.
  - intros addr. rewrite AddAllInputScripts_unfold.
    destruct (len (tx_TxIn (sgTx st)) =? len prevPkScripts); [|simpl; tauto].
    apply signLoop_lookups.
Qed.

End AddAllFacts.

(** ** More on the builder: errors, calls and the shape of the result *)

Section BuilderCalls.

Context {policy : Policy} {W : Type}.
Variable outputs : list TxOut.
Variable relayFeePerKb : Z.
Variable fetchInputs : InputSource W.
Variable fetchChange : ChangeSource W.

Local Abbreviation feeFor := (requiredFee outputs relayFeePerKb).
Local Abbreviation build :=
  (NewUnsignedTransaction outputs relayFeePerKb fetchInputs fetchChange).
Local Abbreviation pass := (loopBody outputs relayFeePerKb fetchInputs fetchChange).
Local Abbreviation passes := (loop outputs relayFeePerKb fetchInputs fetchChange).
Local Abbreviation step := (bodyStep outputs relayFeePerKb fetchInputs fetchChange).

(** The calls a run adds to the log: calls of the input source, then at
    most one call of the change source. *)
Lemma loop_calls (fuel : nat) (T : Z) :
  forall (fee : Z) (env : Env W),
    exists ins chg : list event,
      log (snd (passes fuel T fee env)) = log env ++ ins ++ chg /\
      (forall ev, In ev ins -> ~ isFetchChange ev) /\
      (chg = [] \/ exists answer, chg = [FetchChange answer]).
Proof.
  induction fuel as [|fuel IH]; intros fee env; simpl.
  - exists [], []. rewrite app_nil_r. repeat split; [intros ev []|now left].
  - unfold bind. pose proof (loopBody_step outputs relayFeePerKb fetchInputs fetchChange
                               T fee env) as Hstep.
    destruct (pass T fee env) as [o env1]. simpl in Hstep.
    inversion Hstep; subst; simpl;
      try (eexists [_], []; rewrite app_nil_r; split; [reflexivity|];
           split; [intros ev [<-|[]]; simpl; tauto|now left]);
      try (eexists [_], [_]; rewrite <- app_assoc; split; [reflexivity|];
           split; [intros ev [<-|[]]; simpl; tauto|right; eauto]).
    destruct (IH (requiredFee outputs relayFeePerKb (len (inputs r)))
                 (mkEnv w (log env ++ [FetchInputs t (inr r)])))
      as (ins & chg & Hlog & Hins & Hchg).
    exists (FetchInputs t (inr r) :: ins), chg.
    split; [|split; [|exact Hchg]].
    + rewrite Hlog. simpl. now rewrite <- app_assoc.
    + intros ev [<-|Hin]; [simpl; tauto|now apply Hins].
Qed.

(** The errors a run can end with: the builder's own two and those the
    callbacks returned. *)
Lemma loop_errors (fuel : nat) (T : Z) :
  forall (fee : Z) (env : Env W),
    let res := passes fuel T fee env in
    forall err, fst res = Err err ->
      err = insufficientFundsError \/
      err = errorString
        "fee estimation requires change scripts no larger than P2PKH output scripts" \/
      (exists target, In (FetchInputs target (inl err)) (log (snd res))) \/
      In (FetchChange (inl err)) (log (snd res)).
Proof.
  induction fuel as [|fuel IH]; intros fee env; simpl.
  - discriminate.
  - unfold bind. pose proof (loopBody_step outputs relayFeePerKb fetchInputs fetchChange
                               T fee env) as Hstep.
    destruct (pass T fee env) as [o env1]. simpl in Hstep.
    inversion Hstep; subst; simpl; try apply IH;
      intros err' [= <-]; try discriminate.
    + right. right. left. exists t. apply in_app_iff. right. now left.
    + now left.
    + right. right. right. apply in_app_iff. right. now left.
    + right. now left.
Qed.

(** A call that a callback answered with an error is the last call of
    the run, and its error is what the run returns. *)
Lemma loop_callback_error (fuel : nat) (T : Z) :
  forall (fee : Z) (env : Env W),
    (forall ev, In ev (log env) ->
       match ev with
       | FetchInputs _ (inr _) => True
       | _ => False
       end) ->
    let res := passes fuel T fee env in
    forall err,
      (exists target, In (FetchInputs target (inl err)) (log (snd res))) \/
      In (FetchChange (inl err)) (log (snd res)) ->
      fst res = Err err.
Proof.
  induction fuel as [|fuel IH]; intros fee env Hlog; simpl.
  - intros err [[target Hin]|Hin]; now apply Hlog in Hin.
  - unfold bind. pose proof (loopBody_step outputs relayFeePerKb fetchInputs fetchChange
                               T fee env) as Hstep.
    destruct (pass T fee env) as [o env1]. simpl in Hstep.
    inversion Hstep; subst; simpl;
      try (intros err' [[target Hin]|Hin];
           repeat (apply in_app_iff in Hin as [Hin|Hin]);
           try (now apply Hlog in Hin);
           destruct Hin as [Hin|[]]; try discriminate Hin;
           inversion Hin; reflexivity).
    apply IH. intros ev Hin.
    apply in_app_iff in Hin as [Hin|[<-|[]]]; [now apply Hlog|exact I].
Qed.

(** X1.  An error returned by the input source or by the change source
    ends the run, and the run returns that very error. *)
Theorem NewUnsignedTransaction_returns_callback_error
    (fuel : nat) (w : W) (err : error) :
  (exists target, In (FetchInputs target (inl err)) (log (snd (build fuel w)))) \/
  In (FetchChange (inl err)) (log (snd (build fuel w))) ->
  fst (build fuel w) = Err err.
Proof.
  intros Hin.
  apply (loop_callback_error fuel (SumOutputValues outputs)
           (FeeForSerializeSize relayFeePerKb (EstimateSerializeSize 0 outputs true))
           (mkEnv w [])); [intros ev []|exact Hin].
Qed.

(** X2.  Whatever the run does, its calls are calls of the input source
    followed by at most one call of the change source, which is then the
    last call made. *)
Theorem NewUnsignedTransaction_calls_change_source_last
    (fuel : nat) (w : W) :
  exists ins chg : list event,
    log (snd (build fuel w)) = ins ++ chg /\
    (forall ev, In ev ins -> ~ isFetchChange ev) /\
    (chg = [] \/ exists answer, chg = [FetchChange answer]).
Proof.
  destruct (loop_calls fuel (SumOutputValues outputs)
              (FeeForSerializeSize relayFeePerKb (EstimateSerializeSize 0 outputs true))
              (mkEnv w [])) as (ins & chg & Hlog & Hins & Hchg).
  exists ins, chg. split; [exact Hlog|]. split; [exact Hins|exact Hchg].
Qed.

(** X3.  Given callbacks that return, the only errors the builder
    returns are [insufficientFundsError], the fee estimation error and
    the errors its callbacks returned. *)
Theorem NewUnsignedTransaction_errors (fuel : nat) (w : W) (err : error) :
  fst (NewUnsignedTransaction outputs relayFeePerKb fetchInputs fetchChange fuel w)
    = Err err ->
  err = insufficientFundsError \/
  err = errorString
    "fee estimation requires change scripts no larger than P2PKH output scripts" \/
  (exists target, In (FetchInputs target (inl err)) (log (snd (build fuel w)))) \/
  In (FetchChange (inl err)) (log (snd (build fuel w))).
Proof.
  apply (loop_errors fuel (SumOutputValues outputs)
           (FeeForSerializeSize relayFeePerKb (EstimateSerializeSize 0 outputs true))
           (mkEnv w [])).
Qed.

(** What the final [return] hands back: the inputs, scripts, values and
    total of the answer just received, and the requested outputs with the
    change output, if any, appended. *)
Lemma loopBody_returns (T fee : Z) (env env' : Env W) (tx : AuthoredTx) :
  pass T fee env = (Ok (inr tx), env') ->
  exists r : Inputs,
    (exists w, fetchInputs (world env) (Int64.add T fee) = (w, inr r)) /\
    Int64.add T fee <= total r /\
    TotalInput tx = total r /\
    tx_TxIn (Tx tx) = inputs r /\
    PrevScripts tx = scripts r /\
    PrevInputValues tx = inputValues r /\
    tx_Version (Tx tx) = TxVersion /\
    tx_LockTime (Tx tx) = 0 /\
    ((ChangeIndex tx = -1 /\
      tx_TxOut (Tx tx) = outputs /\
      log env' = log env ++ [FetchInputs (Int64.add T fee) (inr r)]) \/
     (exists change : TxOut,
        ChangeIndex tx = len outputs /\
        tx_TxOut (Tx tx) = outputs ++ [change] /\
        len (PkScript change) <= P2PKHPkScriptSize /\
        log env' = log env ++ [FetchInputs (Int64.add T fee) (inr r);
                               FetchChange (inr (PkScript change))])).
Proof.
  unfold loopBody, callFetchInputs, callFetchChange, bind, fail, ret; simpl.
  destruct (fetchInputs (world env) (Int64.add T fee)) as [w [err|r]]; simpl;
    [discriminate|].
  destruct (Z.ltb_spec (total r) (Int64.add T fee)); simpl; [discriminate|].
  destruct (Int64.sub (total r) T <? _); simpl; [discriminate|].
  destruct (negb _ && negb _); simpl.
  - destruct (fetchChange w) as [w2 [err|changeScript]]; simpl; [discriminate|].
    rewrite Z.gtb_ltb.
    destruct (Z.ltb_spec P2PKHPkScriptSize (len changeScript)); simpl; [discriminate|].
    intros [= <- <-]. exists r. simpl. split; [now exists w|].
    repeat split; trivial.
    right. eexists. repeat split; simpl; trivial.
    now rewrite <- app_assoc.
  - intros [= <- <-]. exists r. simpl. split; [now exists w|].
    repeat split; trivial.
    left. repeat split.
Qed.

Lemma loop_returns (fuel : nat) (T : Z) :
  forall (fee : Z) (env env' : Env W) (tx : AuthoredTx),
    passes fuel T fee env = (Ok tx, env') ->
    exists (earlier : list event) (target : Z) (r : Inputs),
      (forall ev, In ev earlier -> ~ isFetchChange ev) /\
      (exists w0 w1, fetchInputs w0 target = (w1, inr r)) /\
      target <= total r /\
      TotalInput tx = total r /\
      tx_TxIn (Tx tx) = inputs r /\
      PrevScripts tx = scripts r /\
      PrevInputValues tx = inputValues r /\
      tx_Version (Tx tx) = TxVersion /\
      tx_LockTime (Tx tx) = 0 /\
      ((ChangeIndex tx = -1 /\
        tx_TxOut (Tx tx) = outputs /\
        log env' = log env ++ earlier ++ [FetchInputs target (inr r)]) \/
       (exists change : TxOut,
          ChangeIndex tx = len outputs /\
          tx_TxOut (Tx tx) = outputs ++ [change] /\
          len (PkScript change) <= P2PKHPkScriptSize /\
          log env' = log env ++ earlier ++ [FetchInputs target (inr r);
                                            FetchChange (inr (PkScript change))])).
Proof.
  induction fuel as [|fuel IH]; intros fee env env' tx; simpl; [discriminate|].
  unfold bind.
  destruct (pass T fee env) as [[[fee'|tx']| | |] env1] eqn:Hbody; try discriminate.
  - intros Hrest.
    destruct (IH _ _ _ _ Hrest)
      as (earlier & target & r & Hearlier & Hfetch & Hcover & Htotal & Hin & Hscr
          & Hval & Hver & Hlock & Hout).
    pose proof (loopBody_step outputs relayFeePerKb fetchInputs fetchChange T fee env)
      as Hstep.
    rewrite Hbody in Hstep. simpl in Hstep. inversion Hstep; subst. simpl in Hout.
    exists (FetchInputs t (inr r0) :: earlier), target, r.
    split; [intros ev [<-|Hev]; [simpl; tauto|now apply Hearlier]|].
    repeat (split; [assumption|]).
    destruct Hout as [(Hidx & Houts & Hlog)|(change & Hidx & Houts & Hsize & Hlog)].
    + left. repeat split; trivial. rewrite Hlog. now rewrite <- app_assoc.
    + right. exists change. repeat split; trivial. rewrite Hlog. now rewrite <- app_assoc.
  - intros [= <- <-].
    destruct (loopBody_returns _ _ _ _ _ Hbody)
      as (r & [w1 Hfetch] & Hcover & Htotal & Hin & Hscr & Hval & Hver & Hlock & Hout).
    exists [], (Int64.add T fee), r.
    split; [intros ev []|]. split; [now exists (world env), w1|].
    repeat (split; [assumption|]). exact Hout.
Qed.

(** X4.  The transaction returned spends exactly what the input source
    answered last: its inputs, its previous scripts and values, and its
    total, which covers the target that was asked for. *)
Theorem NewUnsignedTransaction_spends_last_answer
    (fuel : nat) (w : W) (tx : AuthoredTx) (env' : Env W) :
  build fuel w = (Ok tx, env') ->
  exists (earlier : list event) (target : Z) (r : Inputs) (later : list event),
    log env' = earlier ++ FetchInputs target (inr r) :: later /\
    (forall ev, In ev earlier -> ~ isFetchChange ev) /\
    (forall ev, In ev later -> isFetchChange ev) /\
    target <= total r /\
    TotalInput tx = total r /\
    tx_TxIn (Tx tx) = inputs r /\
    PrevScripts tx = scripts r /\
    PrevInputValues tx = inputValues r.
Proof.
  intros Hrun. apply loop_returns in Hrun
    as (earlier & target & r & Hearlier & _ & Hcover & Htotal & Hin & Hscr & Hval
        & _ & _ & Hout).
  simpl in Hout.
  destruct Hout as [(_ & _ & Hlog)|(change & _ & _ & _ & Hlog)].
  - exists earlier, target, r, []. rewrite Hlog.
    repeat split; trivial. intros ev [].
  - exists earlier, target, r, [FetchChange (inr (PkScript change))]. rewrite Hlog.
    repeat split; trivial. intros ev [<-|[]]. exact I.
Qed.

(** X5.  The transaction returned has version [wire.TxVersion] and lock
    time 0 and keeps the requested outputs in their order.  Either there
    is no change ([ChangeIndex = -1]), the outputs are the requested ones
    and the change source was never called; or the change output is the
    last output, at [ChangeIndex = len(outputs)], locked by the script the
    change source returned, which is no longer than a P2PKH script. *)
Theorem NewUnsignedTransaction_keeps_requested_outputs
    (fuel : nat) (w : W) (tx : AuthoredTx) (env' : Env W) :
  build fuel w = (Ok tx, env') ->
  tx_Version (Tx tx) = TxVersion /\
  tx_LockTime (Tx tx) = 0 /\
  ((ChangeIndex tx = -1 /\
    tx_TxOut (Tx tx) = outputs /\
    forall answer, ~ In (FetchChange answer) (log env')) \/
   (exists change : TxOut,
      ChangeIndex tx = len outputs /\
      tx_TxOut (Tx tx) = outputs ++ [change] /\
      In (FetchChange (inr (PkScript change))) (log env') /\
      len (PkScript change) <= P2PKHPkScriptSize)).
Proof.
  intros Hrun. apply loop_returns in Hrun
    as (earlier & target & r & Hearlier & _ & _ & _ & _ & _ & _ & Hver & Hlock & Hout).
  simpl in Hout. split; [exact Hver|]. split; [exact Hlock|].
  destruct Hout as [(Hidx & Houts & Hlog)|(change & Hidx & Houts & Hsize & Hlog)].
  - left. repeat split; trivial. rewrite Hlog. intros answer Hin.
    apply in_app_iff in Hin as [Hin|[Hin|[]]]; [|discriminate].
    apply Hearlier in Hin. apply Hin. exact I.
  - right. exists change. repeat split; trivial. rewrite Hlog.
    apply in_app_iff. right. right. now left.
Qed.

(** X6.  When every answer of the input source comes with as many
    previous scripts and values as inputs, so does the authored
    transaction: the parallel slices [AddAllInputScripts] relies on have
    the length of [Tx.TxIn]. *)
Theorem NewUnsignedTransaction_keeps_parallel_slices
    (fuel : nat) (w : W) (tx : AuthoredTx) (env' : Env W) :
  (forall w0 target w1 r,
     fetchInputs w0 target = (w1, inr r) ->
     len (inputs r) = len (scripts r) /\ len (inputs r) = len (inputValues r)) ->
  build fuel w = (Ok tx, env') ->
  len (tx_TxIn (Tx tx)) = len (PrevScripts tx) /\
  len (tx_TxIn (Tx tx)) = len (PrevInputValues tx).
Proof.
  intros Hsource Hrun. apply loop_returns in Hrun
    as (earlier & target & r & _ & (w0 & w1 & Hfetch) & _ & _ & -> & -> & -> & _).
  exact (Hsource _ _ _ _ Hfetch).
Qed.

(** X7.  On amounts within the non-negative 64-bit range, the inputs of
    the transaction returned exceed its outputs by at least the required
    fee: the builder never underpays. *)
Theorem NewUnsignedTransaction_pays_required_fee
    (fuel : nat) (w : W) (tx : AuthoredTx) (env' : Env W) :
  build fuel w = (Ok tx, env') ->
  validAmounts outputs relayFeePerKb tx ->
  feeFor (len (tx_TxIn (Tx tx)))
    <= TotalInput tx - exactOutputValue (tx_TxOut (Tx tx)).
Proof.
  intros Hrun Hvalid. apply loop_authored in Hrun.
  pose proof (authored_exact outputs relayFeePerKb _ tx Hrun eq_refl Hvalid) as Hexact.
  enough (0 <= residualValue outputs relayFeePerKb tx)
    by (unfold exactResidualValue in Hexact; lia).
  clear Hexact. destruct Hvalid as (Hpos & Hfits & Hinput & Hfee_pos).
  pose proof (SumOutputValues_exact outputs Hpos Hfits) as Hsum.
  assert (Htarget : 0 <= exactOutputValue outputs).
  { clear -Hpos. induction Hpos; simpl; lia. }
  unfold Int64.max_signed in *.
  destruct Hrun as [r fee changeAmount Hfee Hsmall
                   |r changeScript fee changeAmount Hfee Hnz Hdust Hsize];
    subst fee changeAmount; unfold residualValue; simpl in *.
  - rewrite Hsum in *.
    assert (Hremaining : Int64.sub (total r) (exactOutputValue outputs)
                         = total r - exactOutputValue outputs).
    { apply wrap_small.
      unfold Int64.in_range, Int64.min_signed, Int64.max_signed. lia. }
    rewrite Hremaining in *. unfold Int64.sub. rewrite wrap_small; [lia|].
    unfold Int64.in_range, Int64.min_signed, Int64.max_signed. lia.
  - rewrite SumOutputValues_app. simpl.
    pose proof (change_balances (total r) (SumOutputValues outputs)
                  (requiredFee outputs relayFeePerKb (len (inputs r)))) as Hzero.
    cbv zeta in Hzero. rewrite Hzero. lia.
Qed.

Lemma requestedTargets_app (l l' : list event) :
  requestedTargets (l ++ l') = requestedTargets l ++ requestedTargets l'.
Proof. unfold requestedTargets. apply flat_map_app. Qed.

Lemma StronglySorted_snoc (l : list Z) (t : Z) :
  StronglySorted Z.lt l -> Forall (fun x => x < t) l -> StronglySorted Z.lt (l ++ [t]).
Proof.
  induction 1 as [|x l Hsorted IH Hx]; intros Hall; simpl.
  - repeat constructor.
  - apply Forall_cons in Hall as [Hxt Hall]. constructor; [now apply IH|].
    apply Forall_app. split; [exact Hx|]. now repeat constructor.
Qed.

Lemma loop_targets_increase (fuel : nat) (T : Z) :
  0 <= T ->
  (forall w0 target w1 r,
     Int64.in_range target ->
     fetchInputs w0 target = (w1, inr r) ->
     total r <= Int64.max_signed /\
     0 <= feeFor (len (inputs r)) /\
     T + feeFor (len (inputs r)) <= Int64.max_signed) ->
  forall (fee : Z) (env : Env W),
    0 <= fee ->
    T + fee <= Int64.max_signed ->
    StronglySorted Z.lt (requestedTargets (log env)) ->
    Forall (fun t => t < T + fee) (requestedTargets (log env)) ->
    StronglySorted Z.lt (requestedTargets (log (snd (passes fuel T fee env)))).
Proof.
  intros HT Hsource.
  induction fuel as [|fuel IH]; intros fee env Hfee_pos Hfee_fits Hsorted Hbelow; simpl;
    [exact Hsorted|].
  unfold bind. pose proof (loopBody_step outputs relayFeePerKb fetchInputs fetchChange
                             T fee env) as Hstep.
  destruct (pass T fee env) as [o env1]. simpl in Hstep.
  unfold Int64.max_signed in *.
  assert (Ht : Int64.add T fee = T + fee).
  { apply wrap_small. unfold Int64.in_range, Int64.min_signed, Int64.max_signed. lia. }
  assert (Hnext : StronglySorted Z.lt (requestedTargets (log env) ++ [Int64.add T fee])).
  { apply StronglySorted_snoc; [exact Hsorted|]. now rewrite Ht. }
  inversion Hstep; subst; simpl;
    rewrite ?requestedTargets_app; simpl; rewrite ?app_nil_r; try exact Hnext.
  match goal with H : fetchInputs _ _ = (_, inr r) |- _ =>
    destruct (Hsource _ _ _ _ (wrap_in_range _) H) as (Hmax & Hnew_pos & Hnew_fits) end.
  assert (Hlow : fee < feeFor (len (inputs r))).
  { match goal with H : Int64.sub (total r) T < _ |- _ => rename H into Hsub end.
    unfold Int64.sub in Hsub. rewrite wrap_small in Hsub.
    - subst t. lia.
    - subst t. unfold Int64.in_range, Int64.min_signed, Int64.max_signed. lia. }
  apply IH; trivial.
  - simpl. rewrite requestedTargets_app. exact Hnext.
  - simpl. rewrite requestedTargets_app. simpl. apply Forall_app. split.
    + eapply Forall_impl; [exact Hbelow|]. simpl. intros x Hx. lia.
    + repeat constructor. subst t. lia.
Qed.

(** X8.  As long as no amount overflows (the target amount, the fees and
    the totals answered are non-negative 64-bit amounts whose sums fit),
    every new call of the input source asks for strictly more than the
    call before: the targets requested in one run increase. *)
Theorem NewUnsignedTransaction_targets_increase (fuel : nat) (w : W) :
  let T := SumOutputValues outputs in
  0 <= T ->
  0 <= feeFor 0 ->
  T + feeFor 0 <= Int64.max_signed ->
  (forall w0 target w1 r,
     Int64.in_range target ->
     fetchInputs w0 target = (w1, inr r) ->
     total r <= Int64.max_signed /\
     0 <= feeFor (len (inputs r)) /\
     T + feeFor (len (inputs r)) <= Int64.max_signed) ->
  StronglySorted Z.lt (requestedTargets (log (snd (build fuel w)))).
Proof.
  intros T HT Hfee_pos Hfee_fits Hsource.
  apply (loop_targets_increase fuel T HT Hsource); simpl; trivial; constructor.
Qed.

End BuilderCalls.

(** ** More on output randomization: bounds and composition *)

Lemma slice_get_out_of_range {A : Type} (l : list A) (i : Z) :
  ~ (0 <= i < len l) -> slice_get l i = None.
Proof.
  unfold slice_get, len. intros Hi.
  destruct (Z.ltb_spec i 0); [reflexivity|].
  apply lookup_ge_None_2. lia.
Qed.

(** Two swaps of the same two positions put every element back. *)
Lemma swap_back {A : Type} (l : list A) (i j : nat) (a b : A) :
  l !! i = Some a -> l !! j = Some b ->
  <[j := b]> (<[i := a]> (<[i := b]> (<[j := a]> l))) = l.
Proof.
  intros Hi Hj. rewrite list_insert_insert_eq.
  destruct (decide (i = j)) as [->|Hne].
  - rewrite !list_insert_insert_eq. now apply list_insert_id.
  - rewrite (list_insert_insert_ne _ i j) by exact Hne.
    rewrite list_insert_insert_eq, (list_insert_id l i a) by exact Hi.
    now apply list_insert_id.
Qed.

(** X9.  For an [index] outside the outputs, [RandomizeOutputPosition]
    panics on [outputs[index]] whatever is drawn and leaves the outputs
    as they were; so does [RandomizeChangePosition] for a [ChangeIndex]
    that is not a position of [Tx.TxOut], leaving the authored
    transaction as it was. *)
Theorem RandomizeOutputPosition_index_out_of_range
    (outputs : list TxOut) (index r : Z) :
  ~ (0 <= index < len outputs) ->
  RandomizeOutputPosition r index outputs
    = (Panic (IndexOutOfRange index (len outputs)), outputs) /\
  forall tx : AuthoredTx,
    tx_TxOut (Tx tx) = outputs ->
    ChangeIndex tx = index ->
    RandomizeChangePosition r tx
      = (Panic (IndexOutOfRange index (len outputs)), tx).
Proof.
  intros Hout. pose proof (slice_get_out_of_range outputs index Hout) as Hget.
  assert (Hrun : RandomizeOutputPosition r index outputs
                 = (Panic (IndexOutOfRange index (len outputs)), outputs)).
  { rewrite RandomizeOutputPosition_unfold. now rewrite Hget. }
  split; [exact Hrun|].
  intros tx Houts Hidx.
  rewrite RandomizeChangePosition_unfold, Hidx, Houts, Hrun, <- Houts.
  now rewrite set_TxOut_same.
Qed.

(** X10.  When the draw is the position itself, nothing moves:
    [RandomizeOutputPosition] returns [index] and the outputs are as they
    were. *)
Theorem RandomizeOutputPosition_same_position (outputs : list TxOut) (index : Z) :
  0 <= index < len outputs ->
  RandomizeOutputPosition index index outputs = (Ok index, outputs).
Proof.
  intros Hindex.
  destruct (slice_get_in_range outputs index Hindex) as (atIndex & Hget & Hlookup).
  rewrite RandomizeOutputPosition_unfold, Hget. unfold slice_set.
  rewrite list_insert_insert_eq. now rewrite list_insert_id.
Qed.

(** X11.  Swapping back: after [RandomizeOutputPosition] moved the output
    at [index] to the drawn position [r], a second call for position [r]
    that draws [index] restores the outputs; two such calls of
    [RandomizeChangePosition] restore the authored transaction. *)
Theorem RandomizeOutputPosition_twice (outputs : list TxOut) (index r : Z) :
  0 <= index < len outputs ->
  0 <= r < len outputs ->
  exists outputs' : list TxOut,
    RandomizeOutputPosition r index outputs = (Ok r, outputs') /\
    RandomizeOutputPosition index r outputs' = (Ok index, outputs) /\
    forall tx : AuthoredTx,
      tx_TxOut (Tx tx) = outputs ->
      ChangeIndex tx = index ->
      exists tx' : AuthoredTx,
        RandomizeChangePosition r tx = (Ok tt, tx') /\
        RandomizeChangePosition index tx' = (Ok tt, tx).
Proof.
  intros Hindex Hr.
  destruct (slice_get_in_range outputs index Hindex) as (atIndex & Hgi & Hli).
  destruct (slice_get_in_range outputs r Hr) as (atR & Hgr & Hlr).
  set (outputs' := slice_set (slice_set outputs r atIndex) index atR).
  assert (Hlen : len outputs' = len outputs).
  { unfold outputs', slice_set, len. now rewrite !length_insert. }
  assert (Hfirst : RandomizeOutputPosition r index outputs = (Ok r, outputs')).
  { rewrite RandomizeOutputPosition_unfold. now rewrite Hgi, Hgr. }
  assert (Hat_r : slice_get outputs' r = Some atIndex).
  { rewrite slice_get_nonneg by lia. unfold outputs', slice_set.
    destruct (decide (Z.to_nat index = Z.to_nat r)) as [Heq|Hne].
    - rewrite Heq in *. rewrite list_lookup_insert_eq.
      + congruence.
      + rewrite length_insert. unfold len in Hr. lia.
    - rewrite list_lookup_insert_ne by exact Hne.
      apply list_lookup_insert_eq. unfold len in Hr. lia. }
  assert (Hat_index : slice_get outputs' index = Some atR).
  { rewrite slice_get_nonneg by lia. unfold outputs', slice_set.
    apply list_lookup_insert_eq. rewrite length_insert. unfold len in Hindex. lia. }
  assert (Hsecond : RandomizeOutputPosition index r outputs' = (Ok index, outputs)).
  { rewrite RandomizeOutputPosition_unfold, Hat_r, Hat_index.
    unfold outputs', slice_set. now rewrite swap_back. }
  exists outputs'. split; [exact Hfirst|]. split; [exact Hsecond|].
  intros tx Houts Hidx.
  eexists. split.
  - rewrite RandomizeChangePosition_unfold, Hidx, Houts, Hfirst. reflexivity.
  - rewrite RandomizeChangePosition_unfold. simpl. rewrite Hsecond.
    subst outputs index. destruct tx as [[] ? ? ? ?]. reflexivity.
Qed.

(** ** More on input signing: what is written, and how the pass can end *)

Lemma sameButScripts_refl (tx : MsgTx) : sameButScripts tx tx.
Proof. repeat split. Qed.

Lemma sameButScripts_trans (tx1 tx2 tx3 : MsgTx) :
  sameButScripts tx1 tx2 -> sameButScripts tx2 tx3 -> sameButScripts tx1 tx3.
Proof.
  intros (H1 & H2 & H3 & H4 & H5 & H6) (K1 & K2 & K3 & K4 & K5 & K6).
  repeat split; congruence.
Qed.

Section SigningOutcomes.

Context {lib : txscript.Lib} {Sec : Type} {secrets : SecretsSource Sec}.
Variable prevPkScripts : list bytes.
Variable inputValues : list Z.
Variable chainParams : txscript.Params.

Local Abbreviation signOne := (signInput prevPkScripts inputValues chainParams).
Local Abbreviation signMany := (signLoop prevPkScripts inputValues chainParams).

(** What one pass does, whatever its outcome: it writes at most the
    signature script of one input, looks up at most one key, and fails
    only with a collaborator's error or on an index out of range. *)
Lemma signInput_effect (i : Z) (st : Signing Sec txscript.Address) :
  let next := signOne i st in
  sameButScripts (sgTx st) (sgTx (snd next)) /\
  (fst next = Ok tt -> length (sgLookups (snd next)) = S (length (sgLookups st))) /\
  (forall err, fst next = Err err -> collaboratorError prevPkScripts chainParams err) /\
  (forall p, fst next = Panic p ->
     0 <= i < len prevPkScripts ->
     0 <= i < len inputValues ->
     0 <= i < len (tx_TxIn (sgTx st)) ->
     p = IndexOutOfRange 0 0) /\
  fst next <> OutOfFuel.
Proof.
  pose proof (signInput_step prevPkScripts inputValues chainParams i st) as Hstep.
  cbv zeta in *. destruct (signOne i st) as [o st']. simpl in *.
  assert (Hin_prev : forall pkScript,
            slice_get prevPkScripts i = Some pkScript -> In pkScript prevPkScripts).
  { intros pkScript Hget. unfold slice_get in Hget.
    destruct (i <? 0); [discriminate|].
    apply list_elem_of_In. eapply list_elem_of_lookup_2, Hget. }
  assert (Hrange : forall (A : Type) (l : list A),
            slice_get l i = None -> 0 <= i < len l -> False).
  { intros A l Hnone Hi.
    destruct (slice_get_in_range l i Hi) as (x & Hsome & _). congruence. }
  split; [|split; [|split; [|split]]].
  - inversion Hstep; subst; simpl; try apply sameButScripts_refl.
    unfold sameButScripts. simpl. repeat split; now apply writeThrough_keeps.
  - inversion Hstep; subst; simpl; try discriminate.
    intros _. now rewrite length_app, Nat.add_1_r.
  - intros err' Herr. rewrite Herr in Hstep. inversion Hstep; subst.
    + left. eauto.
    + right. left. eauto.
    + right. right. eauto 10.
  - intros p' Hp Hprev Hval Hins. rewrite Hp in Hstep.
    inversion Hstep; subst; try reflexivity; exfalso; eauto.
  - inversion Hstep; discriminate.
Qed.

Lemma sameButScripts_length (tx tx' : MsgTx) :
  sameButScripts tx tx' -> len (tx_TxIn tx') = len (tx_TxIn tx).
Proof.
  intros (_ & _ & _ & Hsame & _). unfold len.
  now rewrite <- (length_map PreviousOutPoint), Hsame, length_map.
Qed.

(** What the loop does, whatever its outcome. *)
Lemma signLoop_effect (todo : nat) :
  forall (i : Z) (st : Signing Sec txscript.Address),
    let res := signMany todo i st in
    sameButScripts (sgTx st) (sgTx (snd res)) /\
    (fst res = Ok tt ->
       length (sgLookups (snd res)) = (length (sgLookups st) + todo)%nat) /\
    (forall err, fst res = Err err -> collaboratorError prevPkScripts chainParams err) /\
    (forall p, fst res = Panic p ->
       0 <= i ->
       i + Z.of_nat todo <= len prevPkScripts ->
       i + Z.of_nat todo <= len inputValues ->
       i + Z.of_nat todo <= len (tx_TxIn (sgTx st)) ->
       p = IndexOutOfRange 0 0) /\
    fst res <> OutOfFuel.
Proof.
  induction todo as [|todo IH]; intros i st.
  - simpl. split; [apply sameButScripts_refl|].
    split; [intros _; lia|]. repeat split; discriminate.
  - cbv zeta. rewrite signLoop_unfold.
    pose proof (signInput_effect i st) as (Hsame & Hlook & Herr & Hpanic & Hfuel).
    destruct (signOne i st) as [[[]|err|p|] st1]; simpl in *.
    + pose proof (IH (i + 1) st1) as (Hsame' & Hlook' & Herr' & Hpanic' & Hfuel').
      cbv zeta in *.
      split; [eapply sameButScripts_trans; eassumption|].
      split; [intros Hok; rewrite (Hlook' Hok), (Hlook eq_refl); lia|].
      split; [exact Herr'|]. split; [|exact Hfuel'].
      intros p Hp Hi Hprev Hval Hins. apply (Hpanic' p Hp); try lia.
      rewrite (sameButScripts_length _ _ Hsame). lia.
    + split; [exact Hsame|]. split; [discriminate|].
      split; [intros err' [= <-]; now apply Herr|]. split; discriminate.
    + split; [exact Hsame|]. split; [discriminate|]. split; [discriminate|].
      split; [|discriminate].
      intros p' [= <-] Hi Hprev Hval Hins. apply Hpanic; trivial; lia.
    + now destruct Hfuel.
Qed.

End SigningOutcomes.

Section AddAllOutcomes.

Context {lib : txscript.Lib} {Sec : Type} {secrets : SecretsSource Sec}.

Lemma AddAllInputScripts_effect (prevPkScripts : list bytes) (inputValues : list Z)
    (st : Signing Sec txscript.Address) :
  let res := AddAllInputScripts prevPkScripts inputValues st in
  sameButScripts (sgTx st) (sgTx (snd res)) /\
  (forall err, fst res = Err err ->
     (len (tx_TxIn (sgTx st)) <> len prevPkScripts /\
      err = errorString "tx.TxIn and prevPkScripts slices must have equal length") \/
     collaboratorError prevPkScripts (ChainParams (sgSecrets st)) err) /\
  (forall p, fst res = Panic p ->
     len (tx_TxIn (sgTx st)) = len inputValues ->
     p = IndexOutOfRange 0 0) /\
  fst res <> OutOfFuel.
Proof.
  cbv zeta. rewrite AddAllInputScripts_unfold.
  destruct (Z.eqb_spec (len (tx_TxIn (sgTx st))) (len prevPkScripts)) as [Hlen|Hlen].
  - pose proof (signLoop_effect prevPkScripts inputValues (ChainParams (sgSecrets st))
                  (length (tx_TxIn (sgTx st))) 0 st)
      as (Hsame & _ & Herr & Hpanic & Hfuel).
    cbv zeta in *. split; [exact Hsame|]. split; [|split; [|exact Hfuel]].
    + intros err Hres. right. now apply Herr.
    + intros p Hres Hvals. apply (Hpanic p Hres); unfold len in *; lia.
  - simpl. split; [apply sameButScripts_refl|].
    split; [intros err [= <-]; now left|]. split; discriminate.
Qed.

(** X12.  On a transaction whose inputs are distinct pointers: when
    [AddAllInputScripts] returns no error, there were as many previous
    scripts as inputs, every input carries the signature script produced
    for it and is otherwise as before, and [GetKey] was called once for
    each input. *)
Theorem AddAllInputScripts_signs_every_input (prevPkScripts : list bytes)
    (inputValues : list Z) (st st' : Signing Sec txscript.Address) :
  NoDup (map Ptr (tx_TxIn (sgTx st))) ->
  AddAllInputScripts prevPkScripts inputValues st = (Ok tt, st') ->
  len (tx_TxIn (sgTx st)) = len prevPkScripts /\
  sgTx st' = set_TxIn (tx_TxIn (sgTx st')) (sgTx st) /\
  length (tx_TxIn (sgTx st')) = length (tx_TxIn (sgTx st)) /\
  (forall j, (j < length (tx_TxIn (sgTx st)))%nat ->
     exists (txIn : TxIn) (script : bytes),
       tx_TxIn (sgTx st) !! j = Some txIn /\
       tx_TxIn (sgTx st') !! j = Some (set_SignatureScript script txIn) /\
       producedFor prevPkScripts j script) /\
  length (sgLookups st')
    = (length (sgLookups st) + length (tx_TxIn (sgTx st)))%nat.
Proof.
  intros Hdistinct. rewrite AddAllInputScripts_unfold.
  destruct (Z.eqb_spec (len (tx_TxIn (sgTx st))) (len prevPkScripts)) as [Hlen|Hlen];
    [|discriminate].
  intros Hrun. split; [exact Hlen|].
  pose proof (signLoop_effect prevPkScripts inputValues (ChainParams (sgSecrets st))
                (length (tx_TxIn (sgTx st))) 0 st) as (_ & Hlook & _).
  cbv zeta in Hlook. rewrite Hrun in Hlook. specialize (Hlook eq_refl).
  apply signLoop_Ok with (k := 0%nat) in Hrun; [|exact Hdistinct].
  destruct Hrun as (Heq & Hsame_len & _ & Hsigned).
  repeat split; trivial. intros j Hj. apply Hsigned. lia.
Qed.

(** X13.  However [AddAllInputScripts] ends (no error, an error or a
    panic), the only thing it can have changed in the transaction is the
    signature script of inputs: version, outputs and lock time are as
    before, and so are the number of inputs and the previous outpoint and
    sequence number of each. *)
Theorem AddAllInputScripts_only_writes_signature_scripts
    (prevPkScripts : list bytes) (inputValues : list Z)
    (st : Signing Sec txscript.Address) :
  sameButScripts (sgTx st) (sgTx (snd (AddAllInputScripts prevPkScripts inputValues st))).
Proof. apply AddAllInputScripts_effect. Qed.

(** X14.  With as many previous scripts and input values as inputs, no
    index of the three slices is ever out of range: the call returns no
    error, or returns an error of a collaborator, or panics on the first
    address of an empty address list. *)
Theorem AddAllInputScripts_equal_lengths (prevPkScripts : list bytes)
    (inputValues : list Z) (st : Signing Sec txscript.Address) :
  len (tx_TxIn (sgTx st)) = len prevPkScripts ->
  len (tx_TxIn (sgTx st)) = len inputValues ->
  let res := AddAllInputScripts prevPkScripts inputValues st in
  fst res = Ok tt \/
  (exists err, fst res = Err err /\
               collaboratorError prevPkScripts (ChainParams (sgSecrets st)) err) \/
  fst res = Panic (IndexOutOfRange 0 0).
Proof.
  intros Hprev Hvals res.
  pose proof (AddAllInputScripts_effect prevPkScripts inputValues st)
    as (_ & Herr & Hpanic & Hfuel).
  fold res in Herr, Hpanic, Hfuel.
  destruct (fst res) as [[]|err|p|].
  - now left.
  - right. left. exists err. split; [reflexivity|].
    destruct (Herr err eq_refl) as [[Hne _]|Hcol]; [now destruct Hne|exact Hcol].
  - right. right. now rewrite (Hpanic p eq_refl Hvals).
  - now destruct Hfuel.
Qed.

(** X15.  [AddAllInputScripts] returns no error of its own making other
    than the length error, which it returns only when the number of
    previous scripts differs from the number of inputs: any other error
    is one a collaborator returned, handed back as it is. *)
Theorem AddAllInputScripts_errors (prevPkScripts : list bytes)
    (inputValues : list Z) (st : Signing Sec txscript.Address) (err : error) :
  fst (AddAllInputScripts prevPkScripts inputValues st) = Err err ->
  (len (tx_TxIn (sgTx st)) <> len prevPkScripts /\
   err = errorString "tx.TxIn and prevPkScripts slices must have equal length") \/
  collaboratorError prevPkScripts (ChainParams (sgSecrets st)) err.
Proof. apply AddAllInputScripts_effect. Qed.

Lemma AuthoredTx_AddAllInputScripts_unfold (tx : AuthoredTx) (s : Sec)
    (lookups : list txscript.Address) :
  AuthoredTx_AddAllInputScripts (tx, s, lookups) =
  let res := AddAllInputScripts (PrevScripts tx) (PrevInputValues tx)
               (mkSigning (Tx tx) s lookups) in
  (fst res, (set_Tx (sgTx (snd res)) tx, sgSecrets (snd res), sgLookups (snd res))).
Proof.
  unfold AuthoredTx_AddAllInputScripts, bind, get, zoom. simpl.
  now destruct (AddAllInputScripts (PrevScripts tx) (PrevInputValues tx)
                  (mkSigning (Tx tx) s lookups)).
Qed.

End AddAllOutcomes.

(** ** Input signing when a pointer is listed more than once *)

Section SharedPointers.

Context {lib : txscript.Lib} {Sec : Type} {secrets : SecretsSource Sec}.
Variable prevPkScripts : list bytes.
Variable inputValues : list Z.

Local Abbreviation written := (writtenRange prevPkScripts).

Lemma writtenRange_nothing (from : nat) (tx : MsgTx) : written from 0 tx tx.
Proof.
  split; [now destruct tx|]. split; [reflexivity|].
  intros j txIn Hj. left. split; [|exact Hj]. intros k Hk. lia.
Qed.

(** One pass writes through the pointer at its position. *)
Lemma signInput_written (chainParams : txscript.Params) (k : nat)
    (st st' : Signing Sec txscript.Address) :
  signInput prevPkScripts inputValues chainParams (Z.of_nat k) st = (Ok tt, st') ->
  written k 1 (sgTx st) (sgTx st').
Proof.
  intros Hrun.
  pose proof (signInput_step prevPkScripts inputValues chainParams (Z.of_nat k) st)
    as Hstep.
  rewrite Hrun in Hstep. simpl in Hstep. inversion Hstep; subst. simpl.
  match goal with H : slice_get (tx_TxIn _) _ = Some _ |- _ => rename H into Hin end.
  match goal with H : slice_get prevPkScripts _ = Some _ |- _ => rename H into Hpk end.
  rewrite slice_get_nonneg, Nat2Z.id in Hin by lia.
  rewrite slice_get_nonneg, Nat2Z.id in Hpk by lia.
  split; [reflexivity|]. split; [apply writeThrough_Ptr|].
  intros j other Hj. simpl. rewrite writeThrough_lookup, Hj.
  destruct (Nat.eqb_spec (Ptr other) (Ptr txIn)) as [Heq|Hne].
  - right. exists k, script. split; [lia|]. split.
    { rewrite map_lookup, Hin. simpl. now rewrite Heq. }
    split; [intros k' Hk'; lia|]. split; [reflexivity|].
    exists (sgTx st), (txscript.amountToSatoshi inputValue), pkScript,
      (fst key), (snd key). now split.
  - left. split; [|reflexivity]. intros k0 Hk0. assert (k0 = k) as -> by lia.
    rewrite map_lookup, Hin. simpl. congruence.
Qed.

Lemma writtenRange_extend (from count : nat) (tx tx1 tx2 : MsgTx) :
  written from 1 tx tx1 ->
  written (S from) count tx1 tx2 ->
  written from (S count) tx tx2.
Proof.
  intros (Heq1 & Hp1 & H1) (Heq2 & Hp2 & H2).
  split; [rewrite Heq2 at 1; rewrite Heq1; reflexivity|].
  split; [congruence|].
  intros j txIn Hj.
  destruct (H1 j txIn Hj)
    as [[Hno1 Hsame1]|(k1 & s1 & Hk1 & Hhold1 & Hlast1 & Hnew1 & Hprod1)].
  - destruct (H2 j txIn Hsame1)
      as [[Hno2 Hsame2]|(k2 & s2 & Hk2 & Hhold2 & Hlast2 & Hnew2 & Hprod2)].
    + left. split; [|exact Hsame2]. intros k Hk.
      destruct (decide (k = from)) as [->|Hne]; [apply Hno1; lia|].
      rewrite <- Hp1. apply Hno2. lia.
    + right. exists k2, s2. rewrite Hp1 in Hhold2.
      split; [lia|]. split; [exact Hhold2|].
      split; [intros k' Hk'; rewrite <- Hp1; apply Hlast2; lia|].
      split; [exact Hnew2|exact Hprod2].
  - destruct (H2 j _ Hnew1)
      as [[Hno2 Hsame2]|(k2 & s2 & Hk2 & Hhold2 & Hlast2 & Hnew2 & Hprod2)];
      simpl in *.
    + right. exists k1, s1.
      split; [lia|]. split; [exact Hhold1|].
      split; [intros k' Hk'; rewrite <- Hp1; apply Hno2; lia|].
      split; [exact Hsame2|exact Hprod1].
    + right. exists k2, s2. rewrite Hp1 in Hhold2.
      split; [lia|]. split; [exact Hhold2|].
      split; [intros k' Hk'; rewrite <- Hp1; apply Hlast2; lia|].
      split; [exact Hnew2|exact Hprod2].
Qed.

(** A signing loop that completes has written through the pointers of
    its range, in order. *)
Lemma signLoop_written (chainParams : txscript.Params) (todo : nat) :
  forall (k : nat) (st st' : Signing Sec txscript.Address),
    signLoop prevPkScripts inputValues chainParams todo (Z.of_nat k) st = (Ok tt, st') ->
    written k todo (sgTx st) (sgTx st').
Proof.
  induction todo as [|todo IH]; intros k st st'.
  - simpl. unfold ret. intros [= <-]. apply writtenRange_nothing.
  - rewrite signLoop_unfold.
    destruct (signInput prevPkScripts inputValues chainParams (Z.of_nat k) st)
      as [[[]| | |] st1] eqn:Hfirst; try discriminate.
    replace (Z.of_nat k + 1) with (Z.of_nat (S k)) by lia.
    intros Hrest. eapply writtenRange_extend.
    + eapply signInput_written, Hfirst.
    + apply IH, Hrest.
Qed.

(** X17.  The last write wins.  When [AddAllInputScripts] returns no
    error, every input carries the signature script produced for the last
    position of [tx.TxIn] that holds the same pointer: where one
    [wire.TxIn] is listed more than once, every position that lists it
    shows the script written last, and is otherwise as before. *)
Theorem AddAllInputScripts_last_write_wins (st st' : Signing Sec txscript.Address) :
  AddAllInputScripts prevPkScripts inputValues st = (Ok tt, st') ->
  forall (j : nat) (txIn : TxIn),
    tx_TxIn (sgTx st) !! j = Some txIn ->
    exists (k : nat) (script : bytes),
      (j <= k)%nat /\
      map Ptr (tx_TxIn (sgTx st)) !! k = Some (Ptr txIn) /\
      (forall k', (k < k')%nat -> map Ptr (tx_TxIn (sgTx st)) !! k' <> Some (Ptr txIn)) /\
      tx_TxIn (sgTx st') !! j = Some (set_SignatureScript script txIn) /\
      producedFor prevPkScripts k script.
Proof.
  rewrite AddAllInputScripts_unfold.
  destruct (len (tx_TxIn (sgTx st)) =? len prevPkScripts); [|discriminate].
  intros Hrun. apply signLoop_written with (k := 0%nat) in Hrun.
  destruct Hrun as (_ & _ & Hall).
  intros j txIn Hj.
  assert (Hholds : map Ptr (tx_TxIn (sgTx st)) !! j = Some (Ptr txIn))
    by now rewrite map_lookup, Hj.
  pose proof (lookup_lt_Some _ _ _ Hj) as Hlt.
  destruct (Hall j txIn Hj)
    as [[Hno _]|(k & script & Hk & Hhold & Hlast & Hnew & Hprod)].
  - destruct (Hno j); [lia|exact Hholds].
  - exists k, script. split.
    { destruct (decide (j <= k)%nat) as [Hle|Hgt]; [exact Hle|].
      destruct (Hlast j); [lia|exact Hholds]. }
    split; [exact Hhold|]. split; [|split; [exact Hnew|exact Hprod]].
    intros k' Hk'.
    destruct (decide (k' < length (tx_TxIn (sgTx st)))%nat) as [Hin|Hout].
    + apply Hlast. lia.
    + rewrite map_lookup, lookup_ge_None_2 by lia. discriminate.
Qed.

(** X18.  Failing fast when pointers may be shared.  When the pass for
    input [i] returns an error after the inputs before it were signed,
    [AddAllInputScripts] returns that error at once.  An input whose
    pointer no position before [i] holds is as it was; any other input,
    at whatever position, already carries the script produced for the
    last position before [i] that holds its pointer.  Nothing else in
    the transaction has changed. *)
Theorem AddAllInputScripts_error_with_shared_pointers
    (st st_i st_e : Signing Sec txscript.Address) (i : nat) (err : error) :
  len (tx_TxIn (sgTx st)) = len prevPkScripts ->
  (i < length (tx_TxIn (sgTx st)))%nat ->
  signLoop prevPkScripts inputValues (ChainParams (sgSecrets st)) i 0 st = (Ok tt, st_i) ->
  signInput prevPkScripts inputValues (ChainParams (sgSecrets st)) (Z.of_nat i) st_i
    = (Err err, st_e) ->
  AddAllInputScripts prevPkScripts inputValues st = (Err err, st_e) /\
  sgTx st_e = set_TxIn (tx_TxIn (sgTx st_e)) (sgTx st) /\
  map Ptr (tx_TxIn (sgTx st_e)) = map Ptr (tx_TxIn (sgTx st)) /\
  forall (j : nat) (txIn : TxIn),
    tx_TxIn (sgTx st) !! j = Some txIn ->
    ((forall k, (k < i)%nat -> map Ptr (tx_TxIn (sgTx st)) !! k <> Some (Ptr txIn)) /\
     tx_TxIn (sgTx st_e) !! j = Some txIn) \/
    (exists (k : nat) (script : bytes),
       (k < i)%nat /\
       map Ptr (tx_TxIn (sgTx st)) !! k = Some (Ptr txIn) /\
       (forall k', (k < k' < i)%nat ->
          map Ptr (tx_TxIn (sgTx st)) !! k' <> Some (Ptr txIn)) /\
       tx_TxIn (sgTx st_e) !! j = Some (set_SignatureScript script txIn) /\
       producedFor prevPkScripts k script).
Proof.
  intros Hlen Hi Hprefix Hfail.
  split.
  { eapply AddAllInputScripts_stops; eauto; discriminate. }
  apply signLoop_written with (k := 0%nat) in Hprefix.
  apply signInput_failed in Hfail; [|discriminate]. rewrite Hfail.
  destruct Hprefix as (Heq & Hptr & Hall).
  split; [exact Heq|]. split; [exact Hptr|].
  intros j txIn Hj.
  destruct (Hall j txIn Hj)
    as [[Hno Hsame]|(k & script & Hk & Hhold & Hlast & Hnew & Hprod)].
  - left. split; [|exact Hsame]. intros k Hk. apply Hno. lia.
  - right. exists k, script. split; [lia|]. split; [exact Hhold|].
    split; [intros k' Hk'; apply Hlast; lia|]. split; [exact Hnew|exact Hprod].
Qed.

End SharedPointers.

Section BuildThenSign.

Context {policy : Policy} {W : Type}.
Context {lib : txscript.Lib} {Sec : Type} {secrets : SecretsSource Sec}.

(** X16.  Building, then signing.  When every answer of the input source
    comes with as many previous scripts and values as inputs, the method
    [AddAllInputScripts] of a transaction that [NewUnsignedTransaction]
    returned never fails on the length check nor on an index of its
    slices: it returns no error, or a collaborator's error, or panics on
    an empty address list.  However it ends, it leaves [PrevScripts],
    [PrevInputValues], [TotalInput] and [ChangeIndex] alone and changes
    nothing of the transaction but signature scripts. *)
Theorem AuthoredTx_AddAllInputScripts_after_build
    (outputs : list TxOut) (relayFeePerKb : Z)
    (fetchInputs : InputSource W) (fetchChange : ChangeSource W)
    (fuel : nat) (w : W) (tx : AuthoredTx) (env' : Env W)
    (s : Sec) (lookups : list txscript.Address) :
  (forall w0 target w1 r,
     fetchInputs w0 target = (w1, inr r) ->
     len (inputs r) = len (scripts r) /\ len (inputs r) = len (inputValues r)) ->
  NewUnsignedTransaction outputs relayFeePerKb fetchInputs fetchChange fuel w
    = (Ok tx, env') ->
  let res := AuthoredTx_AddAllInputScripts (tx, s, lookups) in
  let tx' := fst (fst (snd res)) in
  (fst res = Ok tt \/
   (exists err, fst res = Err err /\
                collaboratorError (PrevScripts tx) (ChainParams s) err) \/
   fst res = Panic (IndexOutOfRange 0 0)) /\
  sameButScripts (Tx tx) (Tx tx') /\
  PrevScripts tx' = PrevScripts tx /\
  PrevInputValues tx' = PrevInputValues tx /\
  TotalInput tx' = TotalInput tx /\
  ChangeIndex tx' = ChangeIndex tx.
Proof.
  intros Hsource Hrun res tx'. subst tx' res.
  rewrite AuthoredTx_AddAllInputScripts_unfold. cbv zeta. simpl.
  apply loop_returns in Hrun
    as (earlier & target & r & _ & (w0 & w1 & Hfetch) & _ & _ & Hin & Hscr & Hval & _).
  destruct (Hsource _ _ _ _ Hfetch) as [Hlen_scr Hlen_val].
  pose proof (AddAllInputScripts_effect (PrevScripts tx) (PrevInputValues tx)
                (mkSigning (Tx tx) s lookups)) as (Hsame & Herr & Hpanic & Hfuel).
  cbv zeta in *. simpl in *.
  split; [|split; [exact Hsame|repeat split]].
  destruct (fst (AddAllInputScripts (PrevScripts tx) (PrevInputValues tx)
                   (mkSigning (Tx tx) s lookups))) as [[]|err|p|].
  - now left.
  - right. left. exists err. split; [reflexivity|].
    destruct (Herr err eq_refl) as [[Hne _]|Hcol]; [|exact Hcol].
    destruct Hne. now rewrite Hin, Hscr.
  - right. right. rewrite (Hpanic p eq_refl); [reflexivity|]. now rewrite Hin, Hval.
  - now destruct Hfuel.
Qed.

End BuildThenSign.

(** ** The model on concrete inputs *)

(** C1, counterexample.  One coin of 50327 pays 50000 with a required fee
    of 227: the 100 left over is dust, no change output is made, and the
    inputs exceed outputs plus fee by 100. *)
Lemma conserves_value_counterexample :
  exists (tx : AuthoredTx) (env' : Env unit),
    sampleBuild (oneCoin 50327) (changeOfSize 25) 1 tt = (Ok tx, env') /\
    ChangeIndex tx = -1 /\
    requiredFee (policy := samplePolicy) sampleOutputs 1000 (len (tx_TxIn (Tx tx))) = 227 /\
    TotalInput tx - exactOutputValue (tx_TxOut (Tx tx)) - 227 = 100 /\
    residualValue (policy := samplePolicy) sampleOutputs 1000 tx = 100.
Proof. eexists _, _. split; [reflexivity|]. repeat split. Qed.

(** One coin of 60000 pays 50000 with a required fee of 227: the change
    output takes the 9773 left over and nothing remains. *)
Lemma conserves_value_witness :
  exists (tx : AuthoredTx) (env' : Env unit),
    sampleBuild (oneCoin 60000) (changeOfSize 25) 1 tt = (Ok tx, env') /\
    ChangeIndex tx = 1 /\
    map Value (tx_TxOut (Tx tx)) = [50000; 9773] /\
    (0 <= ChangeIndex tx ->
     residualValue (policy := samplePolicy) sampleOutputs 1000 tx = 0).
Proof.
  eexists _, _. split; [reflexivity|]. split; [reflexivity|]. split; [reflexivity|].
  refine (proj1 (NewUnsignedTransaction_conserves_value (policy := samplePolicy)
                   sampleOutputs 1000 (oneCoin 60000) (changeOfSize 25) 1 tt _ _ _)).
  reflexivity.
Defined.

(** In the same run the change output of 9773 is not dust. *)
Lemma change_not_dust_witness :
  exists (tx : AuthoredTx) (env' : Env unit),
    sampleBuild (oneCoin 60000) (changeOfSize 25) 1 tt = (Ok tx, env') /\
    0 <= ChangeIndex tx /\
    exists change : TxOut,
      slice_get (tx_TxOut (Tx tx)) (ChangeIndex tx) = Some change /\
      Value change <> 0 /\
      IsDustAmount (Policy := samplePolicy) (Value change)
        (P2PKHPkScriptSize (Policy := samplePolicy)) 1000 = false.
Proof.
  eexists _, _. split; [reflexivity|]. split; [vm_compute; discriminate|].
  refine (NewUnsignedTransaction_change_not_dust (policy := samplePolicy)
            sampleOutputs 1000 (oneCoin 60000) (changeOfSize 25) 1 tt _ _ _ _).
  - reflexivity.
  - vm_compute. discriminate.
Defined.

(** One coin of 10 cannot pay 50000: asked for 50078, the input source
    answers 10, and the builder fails without asking for a change script. *)
Lemma insufficient_funds_witness :
  In (FetchInputs 50078 (inr (oneCoinAnswer 10)))
     (log (snd (sampleBuild (oneCoin 10) (changeOfSize 25) 3 tt))) /\
  total (oneCoinAnswer 10) < 50078 /\
  (exists targetFee, 50078 = Int64.add (SumOutputValues sampleOutputs) targetFee) /\
  fst (sampleBuild (oneCoin 10) (changeOfSize 25) 3 tt) = Err insufficientFundsError /\
  isInputSourceError insufficientFundsError = true /\
  forall answer,
    ~ In (FetchChange answer) (log (snd (sampleBuild (oneCoin 10) (changeOfSize 25) 3 tt))).
Proof.
  assert (Hin : In (FetchInputs 50078 (inr (oneCoinAnswer 10)))
                   (log (snd (sampleBuild (oneCoin 10) (changeOfSize 25) 3 tt))))
    by (left; reflexivity).
  assert (Hshort : total (oneCoinAnswer 10) < 50078) by (simpl; lia).
  split; [exact Hin|]. split; [exact Hshort|].
  exact (NewUnsignedTransaction_insufficient_funds (policy := samplePolicy)
           sampleOutputs 1000 (oneCoin 10) (changeOfSize 25) 3 tt
           50078 (oneCoinAnswer 10) Hin Hshort).
Defined.

(** A change source answering with 26 bytes is refused. *)
Lemma rejects_large_change_script_witness :
  In (FetchChange (inr (repeat Byte.x76 26)))
     (log (snd (sampleBuild (oneCoin 60000) (changeOfSize 26) 3 tt))) /\
  P2PKHPkScriptSize (Policy := samplePolicy) < len (repeat Byte.x76 26) /\
  fst (sampleBuild (oneCoin 60000) (changeOfSize 26) 3 tt)
    = Err (errorString
        "fee estimation requires change scripts no larger than P2PKH output scripts").
Proof.
  assert (Hin : In (FetchChange (inr (repeat Byte.x76 26)))
                   (log (snd (sampleBuild (oneCoin 60000) (changeOfSize 26) 3 tt))))
    by (right; left; reflexivity).
  assert (Hbig : P2PKHPkScriptSize (Policy := samplePolicy) < len (repeat Byte.x76 26))
    by (simpl; unfold len; simpl; lia).
  split; [exact Hin|]. split; [exact Hbig|].
  exact (NewUnsignedTransaction_rejects_large_change_script (policy := samplePolicy)
           sampleOutputs 1000 (oneCoin 60000) (changeOfSize 26) 3 tt
           (repeat Byte.x76 26) Hin Hbig).
Defined.

(** C7, counterexample.  [exactGrowing] always returns exactly the total
    asked for, yet after three calls the loop has not ended: every answer
    brings one more input, whose fee the previous request did not cover. *)
Lemma exact_source_counterexample :
  (forall (calls : nat) (target : Z),
     exists (calls' : nat) (r : Inputs),
       exactGrowing calls target = (calls', inr r) /\ total r = target) /\
  fst (sampleBuild exactGrowing (changeOfSize 25) 3 0%nat) = OutOfFuel /\
  fetchInputsCalls (log (snd (sampleBuild exactGrowing (changeOfSize 25) 3 0%nat))) = 3%nat /\
  map (fun ev => match ev with
                 | FetchInputs target (inr r) => (target, total r, len (inputs r))
                 | _ => (0, 0, 0)
                 end)
      (log (snd (sampleBuild exactGrowing (changeOfSize 25) 3 0%nat)))
    = [(50078, 50078, 1); (50227, 50227, 2); (50376, 50376, 3)].
Proof.
  split.
  - intros calls target. eexists _, _. split; reflexivity.
  - repeat split.
Qed.

(** [exactOneCoin] pays every target with one coin: the first pass raises
    the fee estimate from 78 to 227, the second ends the loop. *)
Lemma exact_source_two_calls_witness :
  fst (sampleBuild exactOneCoin (changeOfSize 25) 2 tt) <> OutOfFuel /\
  (fetchInputsCalls (log (snd (sampleBuild exactOneCoin (changeOfSize 25) 2 tt))) <= 2)%nat.
Proof.
  refine (NewUnsignedTransaction_exact_source_two_calls (policy := samplePolicy)
            sampleOutputs 1000 exactOneCoin (changeOfSize 25) 2 tt _ _ _ _).
  - intros w0 target w1 r [= _ <-]. reflexivity.
  - intros n. apply wrap_in_range.
  - intros w1 r1 w2 r2 [= _ <-] [= _ <-]. simpl. lia.
  - lia.
Defined.

(** Drawing 0 for the change output at position 1 of three outputs. *)
Lemma RandomizeOutputPosition_swaps_witness :
  exists outputs' : list TxOut,
    RandomizeOutputPosition 0 1 threeOutputs = (Ok 0, outputs') /\
    map Value outputs' = [20; 10; 30] /\
    outputs' ≡ₚ threeOutputs /\
    exists tx' : AuthoredTx,
      RandomizeChangePosition 0 (sampleAuthored 1) = (Ok tt, tx') /\
      ChangeIndex tx' = 0 /\
      slice_get (tx_TxOut (Tx tx')) (ChangeIndex tx') = Some (NewTxOut 20 sampleScript).
Proof.
  destruct (RandomizeOutputPosition_swaps threeOutputs 1 0) as
    (outputs' & Hrun & Hperm & Hat_r & _ & _ & Hchange).
  - unfold len. simpl. lia.
  - unfold len. simpl. lia.
  - exists outputs'. split; [exact Hrun|].
    assert (Hout : outputs' = [NewTxOut 20 sampleScript; NewTxOut 10 sampleScript;
                               NewTxOut 30 sampleScript]).
    { assert (Hcomputed : RandomizeOutputPosition 0 1 threeOutputs =
                (Ok 0, [NewTxOut 20 sampleScript; NewTxOut 10 sampleScript;
                        NewTxOut 30 sampleScript])) by reflexivity.
      congruence. }
    split; [now rewrite Hout|]. split; [exact Hperm|].
    destruct (Hchange (sampleAuthored 1) eq_refl eq_refl) as
      (tx' & Hrun' & Hidx & _ & Hsame & _).
    exists tx'. split; [exact Hrun'|]. split; [exact Hidx|]. exact Hsame.
Defined.

(** Three outputs, no change output, and a draw of 2. *)
Lemma RandomizeChangePosition_without_change_witness :
  ChangeIndex (sampleAuthored (-1)) = -1 /\
  slice_get (tx_TxOut (Tx (sampleAuthored (-1)))) (ChangeIndex (sampleAuthored (-1))) = None /\
  RandomizeChangePosition 2 (sampleAuthored (-1))
    = (Panic (IndexOutOfRange (-1) 3), sampleAuthored (-1)).
Proof.
  split; [reflexivity|].
  exact (RandomizeChangePosition_without_change_panics 2 (sampleAuthored (-1)) eq_refl).
Defined.

(** C4, counterexample.  The key of the second input cannot be found:
    the call returns that error, and the first input carries a signature
    script it did not have before. *)
Lemma fails_fast_counterexample :
  fst (sampleSign [sampleScript; [Byte.xff]] [10; 20])
    = Err (callbackError false "no key for address") /\
  map SignatureScript (tx_TxIn sampleTx) = [[]; []] /\
  map SignatureScript (tx_TxIn (sgTx (snd (sampleSign [sampleScript; [Byte.xff]] [10; 20]))))
    = [Byte.x48 :: sampleScript; []].
Proof. repeat split. Qed.

(** The same call, read through the theorem with [i = 1]. *)
Lemma fails_fast_witness :
  NoDup (map Ptr (tx_TxIn sampleTx)) /\
  exists st_e : Signing unit bytes,
    sampleSign [sampleScript; [Byte.xff]] [10; 20]
      = (Err (callbackError false "no key for address"), st_e) /\
    tx_TxIn (sgTx st_e) !! 1%nat = tx_TxIn sampleTx !! 1%nat /\
    exists (txIn : TxIn) (script : bytes),
      tx_TxIn sampleTx !! 0%nat = Some txIn /\
      tx_TxIn (sgTx st_e) !! 0%nat = Some (set_SignatureScript script txIn).
Proof.
  assert (Hdistinct : NoDup (map Ptr (tx_TxIn sampleTx)))
    by (apply (bool_decide_unpack _); vm_compute; exact I).
  split; [exact Hdistinct|].
  pose proof (AddAllInputScripts_fails_fast (lib := sampleLib) (secrets := sampleSecrets)
                [sampleScript; [Byte.xff]] [10; 20] (mkSigning sampleTx tt [])
                (snd (signLoop (lib := sampleLib) (secrets := sampleSecrets)
                        [sampleScript; [Byte.xff]] [10; 20] tt 1 0
                        (mkSigning sampleTx tt [])))
                (snd (sampleSign [sampleScript; [Byte.xff]] [10; 20]))
                1 (callbackError false "no key for address")
                Hdistinct eq_refl) as Hfast.
  destruct Hfast as (Hrun & _ & _ & Hafter & Hbefore).
  - simpl. lia.
  - reflexivity.
  - reflexivity.
  - eexists. split; [exact Hrun|]. split; [apply Hafter; lia|].
    destruct (Hbefore 0%nat) as (txIn & script & Hold & Hnew & _); [lia|].
    exists txIn, script. split; [exact Hold|exact Hnew].
Defined.

(** The second previous script is empty and yields no address: the first
    input is signed, then the call panics. *)
Lemma no_address_witness :
  exists st_i : Signing unit bytes,
    sampleSign [sampleScript; []] [10; 20] = (Panic (IndexOutOfRange 0 0), st_i) /\
    sgLookups st_i = [sampleScript].
Proof.
  pose proof (AddAllInputScripts_no_address_panics (lib := sampleLib)
                (secrets := sampleSecrets)
                [sampleScript; []] [10; 20] (mkSigning sampleTx tt [])
                (snd (signLoop (lib := sampleLib) (secrets := sampleSecrets)
                        [sampleScript; []] [10; 20] tt 1 0 (mkSigning sampleTx tt [])))
                1 [] eq_refl eq_refl eq_refl eq_refl) as (_ & Hrun & _).
  eexists. split; [exact Hrun|]. reflexivity.
Defined.

(** C5, the code at mismatched lengths.  With two inputs and two previous
    scripts the length check passes whatever the number of input values:
    with one value the first input is signed and the second pass panics
    on [inputValues[1]]; with no value the first pass panics; with three
    values the call signs both inputs and returns no error.  Only a
    mismatch with [prevPkScripts] is reported as an error. *)
Theorem AddAllInputScripts_unchecked_inputValues :
  fst (sampleSign [sampleScript; sampleScript] [10]) = Panic (IndexOutOfRange 1 1) /\
  map SignatureScript
      (tx_TxIn (sgTx (snd (sampleSign [sampleScript; sampleScript] [10]))))
    = [Byte.x48 :: sampleScript; []] /\
  fst (sampleSign [sampleScript; sampleScript] []) = Panic (IndexOutOfRange 0 0) /\
  fst (sampleSign [sampleScript; sampleScript] [10; 20; 30]) = Ok tt /\
  fst (sampleSign [sampleScript] [10; 20])
    = Err (errorString "tx.TxIn and prevPkScripts slices must have equal length").
Proof. repeat split. Qed.

(** ** The further properties on concrete inputs *)

(** The input source reports locked coins: the builder returns that error. *)
Lemma returns_callback_error_witness :
  In (FetchInputs 50078 (inl (callbackError true "coins are locked")))
     (log (snd (sampleBuild lockedCoins (changeOfSize 25) 3 tt))) /\
  fst (sampleBuild lockedCoins (changeOfSize 25) 3 tt)
    = Err (callbackError true "coins are locked").
Proof.
  assert (Hin : In (FetchInputs 50078 (inl (callbackError true "coins are locked")))
                   (log (snd (sampleBuild lockedCoins (changeOfSize 25) 3 tt))))
    by (left; reflexivity).
  split; [exact Hin|].
  exact (NewUnsignedTransaction_returns_callback_error (policy := samplePolicy)
           sampleOutputs 1000 lockedCoins (changeOfSize 25) 3 tt _
           (or_introl (ex_intro _ 50078 Hin))).
Defined.

(** The change source answers with 26 bytes: the error returned is the
    fee estimation error, the second of the four. *)
Lemma errors_of_builder_witness :
  exists err : error,
    fst (sampleBuild (oneCoin 60000) (changeOfSize 26) 3 tt) = Err err /\
    (err = insufficientFundsError \/
     err = errorString
       "fee estimation requires change scripts no larger than P2PKH output scripts" \/
     (exists target,
        In (FetchInputs target (inl err))
           (log (snd (sampleBuild (oneCoin 60000) (changeOfSize 26) 3 tt)))) \/
     In (FetchChange (inl err))
        (log (snd (sampleBuild (oneCoin 60000) (changeOfSize 26) 3 tt)))).
Proof.
  eexists. split; [reflexivity|].
  exact (NewUnsignedTransaction_errors (policy := samplePolicy)
           sampleOutputs 1000 (oneCoin 60000) (changeOfSize 26) 3 tt _ eq_refl).
Defined.

(** One coin of 60000 pays 50000: the transaction spends that coin. *)
Lemma spends_last_answer_witness :
  exists (tx : AuthoredTx) (env' : Env unit),
    sampleBuild (oneCoin 60000) (changeOfSize 25) 1 tt = (Ok tx, env') /\
    exists (earlier : list event) (target : Z) (r : Inputs) (later : list event),
      log env' = earlier ++ FetchInputs target (inr r) :: later /\
      (forall ev, In ev earlier -> ~ isFetchChange ev) /\
      (forall ev, In ev later -> isFetchChange ev) /\
      target <= total r /\
      TotalInput tx = total r /\
      tx_TxIn (Tx tx) = inputs r /\
      PrevScripts tx = scripts r /\
      PrevInputValues tx = inputValues r.
Proof.
  eexists _, _. split; [reflexivity|].
  exact (NewUnsignedTransaction_spends_last_answer (policy := samplePolicy)
           sampleOutputs 1000 (oneCoin 60000) (changeOfSize 25) 1 tt _ _ eq_refl).
Defined.

(** In the same run the requested output comes first and the change last. *)
Lemma keeps_requested_outputs_witness :
  exists (tx : AuthoredTx) (env' : Env unit),
    sampleBuild (oneCoin 60000) (changeOfSize 25) 1 tt = (Ok tx, env') /\
    map Value (tx_TxOut (Tx tx)) = [50000; 9773] /\
    tx_Version (Tx tx) = 1 /\
    tx_LockTime (Tx tx) = 0 /\
    ((ChangeIndex tx = -1 /\
      tx_TxOut (Tx tx) = sampleOutputs /\
      forall answer, ~ In (FetchChange answer) (log env')) \/
     (exists change : TxOut,
        ChangeIndex tx = len sampleOutputs /\
        tx_TxOut (Tx tx) = sampleOutputs ++ [change] /\
        In (FetchChange (inr (PkScript change))) (log env') /\
        len (PkScript change) <= 25)).
Proof.
  eexists _, _. split; [reflexivity|]. split; [reflexivity|].
  exact (NewUnsignedTransaction_keeps_requested_outputs (policy := samplePolicy)
           sampleOutputs 1000 (oneCoin 60000) (changeOfSize 25) 1 tt _ _ eq_refl).
Defined.

(** [oneCoin] answers with one input, one script and one value. *)
Lemma keeps_parallel_slices_witness :
  exists (tx : AuthoredTx) (env' : Env unit),
    sampleBuild (oneCoin 60000) (changeOfSize 25) 1 tt = (Ok tx, env') /\
    len (tx_TxIn (Tx tx)) = len (PrevScripts tx) /\
    len (tx_TxIn (Tx tx)) = len (PrevInputValues tx).
Proof.
  eexists _, _. split; [reflexivity|].
  refine (NewUnsignedTransaction_keeps_parallel_slices (policy := samplePolicy)
            sampleOutputs 1000 (oneCoin 60000) (changeOfSize 25) 1 tt _ _ _ eq_refl).
  intros w0 target w1 r [= _ <-]. split; reflexivity.
Defined.

(** One coin of 50327 pays 50000: with no change output the whole 327
    goes to the fee, 100 more than the 227 required. *)
Lemma pays_required_fee_witness :
  exists (tx : AuthoredTx) (env' : Env unit),
    sampleBuild (oneCoin 50327) (changeOfSize 25) 1 tt = (Ok tx, env') /\
    validAmounts (policy := samplePolicy) sampleOutputs 1000 tx /\
    TotalInput tx - exactOutputValue (tx_TxOut (Tx tx)) = 327 /\
    requiredFee (policy := samplePolicy) sampleOutputs 1000 (len (tx_TxIn (Tx tx)))
      <= TotalInput tx - exactOutputValue (tx_TxOut (Tx tx)).
Proof.
  eexists _, _. split; [reflexivity|].
  assert (Hvalid : validAmounts (policy := samplePolicy) sampleOutputs 1000
                     {| Tx := {| tx_Version := 1; tx_TxIn := [sampleTxIn 0];
                                 tx_TxOut := sampleOutputs; tx_LockTime := 0 |};
                        PrevScripts := [sampleScript];
                        PrevInputValues := [50327];
                        TotalInput := 50327;
                        ChangeIndex := -1 |}).
  { repeat split; try (vm_compute; discriminate).
    repeat constructor. vm_compute. discriminate. }
  split; [exact Hvalid|]. split; [reflexivity|].
  exact (NewUnsignedTransaction_pays_required_fee (policy := samplePolicy)
           sampleOutputs 1000 (oneCoin 50327) (changeOfSize 25) 1 tt _ _ eq_refl Hvalid).
Defined.

(** [exactOneCoin] is asked for 50078, then for 50227. *)
Lemma targets_increase_witness :
  requestedTargets (log (snd (sampleBuild exactOneCoin (changeOfSize 25) 3 tt)))
    = [50078; 50227] /\
  StronglySorted Z.lt
    (requestedTargets (log (snd (sampleBuild exactOneCoin (changeOfSize 25) 3 tt)))).
Proof.
  split; [reflexivity|].
  refine (NewUnsignedTransaction_targets_increase (policy := samplePolicy)
            sampleOutputs 1000 exactOneCoin (changeOfSize 25) 3 tt _ _ _ _).
  - vm_compute. discriminate.
  - vm_compute. discriminate.
  - vm_compute. discriminate.
  - intros w0 target w1 r Hrange [= _ <-]. simpl. split.
    + apply Hrange.
    + split; vm_compute; discriminate.
Defined.

(** Position 5 of three outputs. *)
Lemma index_out_of_range_witness :
  RandomizeOutputPosition 0 5 threeOutputs
    = (Panic (IndexOutOfRange 5 3), threeOutputs) /\
  RandomizeChangePosition 0 (sampleAuthored 5)
    = (Panic (IndexOutOfRange 5 3), sampleAuthored 5).
Proof.
  destruct (RandomizeOutputPosition_index_out_of_range threeOutputs 5 0) as [Hrun Htx].
  - unfold len. simpl. lia.
  - split; [exact Hrun|]. exact (Htx (sampleAuthored 5) eq_refl eq_refl).
Defined.

(** Drawing 1 for position 1. *)
Lemma same_position_witness :
  RandomizeOutputPosition 1 1 threeOutputs = (Ok 1, threeOutputs).
Proof.
  apply RandomizeOutputPosition_same_position. unfold len. simpl. lia.
Defined.

(** Position 1 moved to 0 and back. *)
Lemma twice_witness :
  exists outputs' : list TxOut,
    map Value outputs' = [20; 10; 30] /\
    RandomizeOutputPosition 0 1 threeOutputs = (Ok 0, outputs') /\
    RandomizeOutputPosition 1 0 outputs' = (Ok 1, threeOutputs) /\
    exists tx' : AuthoredTx,
      RandomizeChangePosition 0 (sampleAuthored 1) = (Ok tt, tx') /\
      RandomizeChangePosition 1 tx' = (Ok tt, sampleAuthored 1).
Proof.
  destruct (RandomizeOutputPosition_twice threeOutputs 1 0)
    as (outputs' & Hfirst & Hsecond & Htx).
  - unfold len. simpl. lia.
  - unfold len. simpl. lia.
  - exists outputs'. split.
    { assert (Hcomputed : RandomizeOutputPosition 0 1 threeOutputs =
                (Ok 0, [NewTxOut 20 sampleScript; NewTxOut 10 sampleScript;
                        NewTxOut 30 sampleScript])) by reflexivity.
      rewrite Hfirst in Hcomputed. now injection Hcomputed as ->. }
    split; [exact Hfirst|]. split; [exact Hsecond|].
    exact (Htx (sampleAuthored 1) eq_refl eq_refl).
Defined.

(** Both inputs of [sampleTx] are signed. *)
Lemma signs_every_input_witness :
  NoDup (map Ptr (tx_TxIn sampleTx)) /\
  exists st' : Signing unit bytes,
    sampleSign [sampleScript; sampleScript] [10; 20] = (Ok tt, st') /\
    map SignatureScript (tx_TxIn (sgTx st'))
      = [Byte.x48 :: sampleScript; Byte.x48 :: sampleScript] /\
    length (sgLookups st') = 2%nat /\
    forall j, (j < 2)%nat ->
      exists (txIn : TxIn) (script : bytes),
        tx_TxIn sampleTx !! j = Some txIn /\
        tx_TxIn (sgTx st') !! j = Some (set_SignatureScript script txIn) /\
        producedFor (lib := sampleLib) [sampleScript; sampleScript] j script.
Proof.
  assert (Hrun : sampleSign [sampleScript; sampleScript] [10; 20]
                 = (Ok tt, snd (sampleSign [sampleScript; sampleScript] [10; 20])))
    by reflexivity.
  assert (Hdistinct : NoDup (map Ptr (tx_TxIn sampleTx)))
    by (apply (bool_decide_unpack _); vm_compute; exact I).
  split; [exact Hdistinct|].
  exists (snd (sampleSign [sampleScript; sampleScript] [10; 20])).
  split; [exact Hrun|]. split; [reflexivity|]. split; [reflexivity|].
  exact (proj1 (proj2 (proj2 (proj2
           (AddAllInputScripts_signs_every_input (lib := sampleLib)
              (secrets := sampleSecrets) [sampleScript; sampleScript] [10; 20]
              (mkSigning sampleTx tt []) _ Hdistinct Hrun))))).
Defined.

(** Two inputs, two scripts, two values. *)
Lemma equal_lengths_witness :
  fst (sampleSign [sampleScript; []] [10; 20]) = Ok tt \/
  (exists err, fst (sampleSign [sampleScript; []] [10; 20]) = Err err /\
               collaboratorError (lib := sampleLib) (secrets := sampleSecrets)
                 [sampleScript; []] tt err) \/
  fst (sampleSign [sampleScript; []] [10; 20]) = Panic (IndexOutOfRange 0 0).
Proof.
  exact (AddAllInputScripts_equal_lengths (lib := sampleLib) (secrets := sampleSecrets)
           [sampleScript; []] [10; 20] (mkSigning sampleTx tt []) eq_refl eq_refl).
Defined.

(** The error of the missing key is the one [GetKey] returned. *)
Lemma errors_witness :
  fst (sampleSign [sampleScript; [Byte.xff]] [10; 20])
    = Err (callbackError false "no key for address") /\
  ((len (tx_TxIn sampleTx) <> len [sampleScript; [Byte.xff]] /\
    callbackError false "no key for address"
      = errorString "tx.TxIn and prevPkScripts slices must have equal length") \/
   collaboratorError (lib := sampleLib) (secrets := sampleSecrets)
     [sampleScript; [Byte.xff]] tt (callbackError false "no key for address")).
Proof.
  split; [reflexivity|].
  exact (AddAllInputScripts_errors (lib := sampleLib) (secrets := sampleSecrets)
           [sampleScript; [Byte.xff]] [10; 20] (mkSigning sampleTx tt []) _ eq_refl).
Defined.

(** One [wire.TxIn] listed twice, two previous scripts: both positions
    end with the script written by the second pass. *)
Lemma last_write_wins_witness :
  exists st' : Signing unit bytes,
    aliasedSign [sampleScript; [Byte.x51]] [10; 20] = (Ok tt, st') /\
    map SignatureScript (tx_TxIn (sgTx st'))
      = [[Byte.x48; Byte.x51]; [Byte.x48; Byte.x51]] /\
    forall (j : nat) (txIn : TxIn),
      tx_TxIn aliasedTx !! j = Some txIn ->
      exists (k : nat) (script : bytes),
        (j <= k)%nat /\
        map Ptr (tx_TxIn aliasedTx) !! k = Some (Ptr txIn) /\
        (forall k', (k < k')%nat -> map Ptr (tx_TxIn aliasedTx) !! k' <> Some (Ptr txIn)) /\
        tx_TxIn (sgTx st') !! j = Some (set_SignatureScript script txIn) /\
        producedFor (lib := sampleLib) [sampleScript; [Byte.x51]] k script.
Proof.
  assert (Hrun : aliasedSign [sampleScript; [Byte.x51]] [10; 20]
                 = (Ok tt, snd (aliasedSign [sampleScript; [Byte.x51]] [10; 20])))
    by reflexivity.
  exists (snd (aliasedSign [sampleScript; [Byte.x51]] [10; 20])).
  split; [exact Hrun|]. split; [reflexivity|].
  exact (AddAllInputScripts_last_write_wins (lib := sampleLib) (secrets := sampleSecrets)
           [sampleScript; [Byte.x51]] [10; 20] (mkSigning aliasedTx tt []) _ Hrun).
Defined.

(** One [wire.TxIn] listed twice, and no key for the second previous
    script: the call returns the error, and the script written by the
    first pass shows at both positions. *)
Lemma error_with_shared_pointers_witness :
  exists st_e : Signing unit bytes,
    aliasedSign [sampleScript; [Byte.xff]] [10; 20]
      = (Err (callbackError false "no key for address"), st_e) /\
    map SignatureScript (tx_TxIn (sgTx st_e))
      = [Byte.x48 :: sampleScript; Byte.x48 :: sampleScript] /\
    exists (txIn : TxIn) (script : bytes),
      tx_TxIn aliasedTx !! 1%nat = Some txIn /\
      tx_TxIn (sgTx st_e) !! 1%nat = Some (set_SignatureScript script txIn) /\
      producedFor (lib := sampleLib) [sampleScript; [Byte.xff]] 0 script.
Proof.
  pose proof (AddAllInputScripts_error_with_shared_pointers
                (lib := sampleLib) (secrets := sampleSecrets)
                [sampleScript; [Byte.xff]] [10; 20] (mkSigning aliasedTx tt [])
                (snd (signLoop (lib := sampleLib) (secrets := sampleSecrets)
                        [sampleScript; [Byte.xff]] [10; 20] tt 1 0
                        (mkSigning aliasedTx tt [])))
                (snd (aliasedSign [sampleScript; [Byte.xff]] [10; 20]))
                1 (callbackError false "no key for address")
                eq_refl) as Hfast.
  destruct Hfast as (Hrun & _ & _ & Hall).
  - simpl. lia.
  - reflexivity.
  - reflexivity.
  - eexists. split; [exact Hrun|]. split; [reflexivity|].
    destruct (Hall 1%nat (sampleTxIn 0) eq_refl)
      as [[Hno _]|(k & script & Hk & _ & _ & Hnew & Hprod)].
    + destruct (Hno 0%nat); [lia|reflexivity].
    + exists (sampleTxIn 0), script. split; [reflexivity|]. split; [exact Hnew|].
      assert (k = 0%nat) as -> by lia. exact Hprod.
Defined.

(** The transaction built from one coin of 60000 is signed by its method. *)
Lemma after_build_witness :
  exists (tx : AuthoredTx) (env' : Env unit),
    sampleBuild (oneCoin 60000) (changeOfSize 25) 1 tt = (Ok tx, env') /\
    fst (AuthoredTx_AddAllInputScripts (lib := sampleLib) (secrets := sampleSecrets)
           (tx, tt, [])) = Ok tt /\
    ChangeIndex
      (fst (fst (snd (AuthoredTx_AddAllInputScripts (lib := sampleLib)
                        (secrets := sampleSecrets) (tx, tt, [])))))
      = ChangeIndex tx.
Proof.
  eexists _, _. split; [reflexivity|]. split; [reflexivity|].
  refine (proj2 (proj2 (proj2 (proj2 (proj2
            (AuthoredTx_AddAllInputScripts_after_build (policy := samplePolicy)
               (lib := sampleLib) (secrets := sampleSecrets)
               sampleOutputs 1000 (oneCoin 60000) (changeOfSize 25) 1 tt _ _ tt []
               _ eq_refl)))))).
  intros w0 target w1 r [= _ <-]. split; reflexivity.
Defined.
